(** * lightsail-panel: authentication, sessions, CSRF and login rate limiting

    A shallow embedding of [lib/auth.ts] (the module that holds the panel's
    single session slot and the per-address rate-limit table) together with
    the properties of it that the specification states. It is followed by
    the code around that module: the command wrapper of [lib/shell.ts], the
    unit-file and environment-file parsers of [lib/services.ts], the request
    filter of [proxy.ts] and the login and logout routes.

    Conventions of the embedding:
    - JavaScript numbers that hold millisecond instants and counters are
      integers here ([Z]); every arithmetic operation of the module stays far
      inside the exactly represented range of a double.
    - JavaScript strings are [string]; only equality, concatenation, prefix
      tests and searches for the ASCII characters [.] and [/] are used.
    - [rateLimitMap] (a [Map<string, RateEntry>]) is a [gmap string RateEntry];
      [entry.attempts++] on the object stored in the map is an insertion of the
      updated record under the same key.
    - [Date.now()], the resolved client address, the request's cookie and
      header, [randomUUID()] and [randomBytes(32).toString("hex")] are inputs
      of the operation that reads them, one argument per read.
    - [createHmac("sha256", key).update(v).digest("hex")] and
      [bcrypt.compare] are library functions: they are section variables.
    - An [async] function runs without interruption between two of its
      [await]s. [logout] and [validateSession] touch the store in one such
      stretch. [validateCSRF] reads the session slot before and after
      [await headers()], which hands back data of the request itself; both
      reads are taken from the same store here. [login] reads the rate-limit
      table, awaits [bcrypt.compare], a computation during which the server
      handles other requests, and writes the table and the session slot
      afterwards. [login] is therefore given in two halves, [login_begin] and
      [login_resume]; [login] is their composition when nothing runs in
      between, and [async_step] lets other requests run in between. *)

From Stdlib Require Import ZArith Ascii String Bool List Lia DecimalString.
From stdpp Require Import base tactics option list gmap strings fin_maps.

Local Open Scope Z_scope.

(** ** JavaScript string primitives used by the module *)

Module JS.

(** [s.lastIndexOf(c)]: [None] stands for the result [-1]. *)
Fixpoint lastIndexOf (c : ascii) (s : string) : option nat :=
  match s with
  | EmptyString => None
  | String a s' =>
      match lastIndexOf c s' with
      | Some i => Some (S i)
      | None => if Ascii.eqb a c then Some 0%nat else None
      end
  end.

(** [s.slice(0, n)] for [0 <= n]. *)
Fixpoint slice0 (n : nat) (s : string) : string :=
  match n, s with
  | O, _ => EmptyString
  | S n', String a s' => String a (slice0 n' s')
  | S _, EmptyString => EmptyString
  end.

(** [s.includes(c)] for a one-character needle. *)
Fixpoint includes (c : ascii) (s : string) : bool :=
  match s with
  | EmptyString => false
  | String a s' => Ascii.eqb a c || includes c s'
  end.

(** [s.split(c)] for a one-character separator: never the empty list. *)
Fixpoint split (c : ascii) (s : string) : list string :=
  match s with
  | EmptyString => [EmptyString]
  | String a s' =>
      if Ascii.eqb a c then EmptyString :: split c s'
      else match split c s' with
           | w :: ws => String a w :: ws
           | [] => [String a EmptyString]
           end
  end.

(** [l.join(sep)]. *)
Fixpoint join (sep : string) (l : list string) : string :=
  match l with
  | [] => EmptyString
  | [w] => w
  | w :: ws => w +:+ sep +:+ join sep ws
  end.

(** [s.startsWith(p)]. *)
Fixpoint startsWith (s p : string) : bool :=
  match p, s with
  | EmptyString, _ => true
  | String b p', String a s' => Ascii.eqb a b && startsWith s' p'
  | String _ _, EmptyString => false
  end.

(** [xs[0]] of an array that [split] returned. *)
Definition first (l : list string) : string :=
  match l with
  | w :: _ => w
  | [] => EmptyString
  end.

(** Truthiness of a string: only the empty string is falsy. *)
Definition truthy (s : string) : bool :=
  match s with
  | EmptyString => false
  | String _ _ => true
  end.

End JS.

(** ** Configuration *)

Definition SESSION_MAX_AGE_MS : Z := 24 * 60 * 60 * 1000.
Definition SESSION_COOKIE : string := "lsp_session".
Definition CSRF_COOKIE : string := "lsp_csrf".
Definition CSRF_HEADER : string := "x-csrf-token".

Definition LOGIN_MAX_ATTEMPTS : Z := 5.
Definition LOGIN_WINDOW_MS : Z := 15 * 60 * 1000.
Definition LOCKOUT_ATTEMPTS : Z := 10.
Definition LOCKOUT_DURATION_MS : Z := 30 * 60 * 1000.

(** The values read from the process environment when the module loads. *)
Record Config := {
  PANEL_SECRET : string;
  PANEL_PASSWORD_HASH : string;
  ALLOWED_IPS : list string
}.

(** ** Data model *)

Record Session := {
  id : string;
  csrfToken : string;
  createdAt : Z;
  lastActivity : Z;
  ip : string
}.

Record RateEntry := {
  attempts : Z;
  firstAttempt : Z;
  lockedUntil : Z
}.

Record RateCheck := {
  allowed : bool;
  remaining : Z;
  retryAfterMs : Z
}.

(** The module-level mutable state: [activeSession] and [rateLimitMap]. *)
Record Store := {
  activeSession : option Session;
  rateLimitMap : gmap string RateEntry
}.

Definition initial_store : Store :=
  {| activeSession := None; rateLimitMap := ∅ |}.

(** ** Rate limiting *)

Definition full_budget : RateCheck :=
  {| allowed := true; remaining := LOGIN_MAX_ATTEMPTS; retryAfterMs := 0 |}.

Definition checkRateLimit (now : Z) (addr : string) (m : gmap string RateEntry)
  : RateCheck * gmap string RateEntry :=
  match m !! addr with
  | None => (full_budget, m)
  | Some entry =>
      if lockedUntil entry >? now then
        ({| allowed := false; remaining := 0;
            retryAfterMs := lockedUntil entry - now |}, m)
      else if now - firstAttempt entry >? LOGIN_WINDOW_MS then
        (full_budget, delete addr m)
      else
        let left := LOGIN_MAX_ATTEMPTS - attempts entry in
        ({| allowed := left >? 0; remaining := Z.max 0 left;
            retryAfterMs := 0 |}, m)
  end.

Definition fresh_entry (now : Z) : RateEntry :=
  {| attempts := 1; firstAttempt := now; lockedUntil := 0 |}.

Definition bump_entry (now : Z) (entry : RateEntry) : RateEntry :=
  let n := attempts entry + 1 in
  {| attempts := n;
     firstAttempt := firstAttempt entry;
     lockedUntil := if n >=? LOCKOUT_ATTEMPTS
                    then now + LOCKOUT_DURATION_MS
                    else lockedUntil entry |}.

Definition recordFailedAttempt (now : Z) (addr : string)
  (m : gmap string RateEntry) : gmap string RateEntry :=
  match m !! addr with
  | None => <[addr := fresh_entry now]> m
  | Some entry =>
      if now - firstAttempt entry >? LOGIN_WINDOW_MS
      then <[addr := fresh_entry now]> m
      else <[addr := bump_entry now entry]> m
  end.

Definition clearRateLimit (addr : string) (m : gmap string RateEntry)
  : gmap string RateEntry := delete addr m.

(** The body of the five-minute [setInterval] callback. *)
Definition stale (now : Z) (entry : RateEntry) : bool :=
  (now - firstAttempt entry >? LOGIN_WINDOW_MS) && (now >? lockedUntil entry).

Definition sweep (now : Z) (m : gmap string RateEntry) : gmap string RateEntry :=
  filter (fun kv => stale now (snd kv) = false) m.

(** Failures recorded one after the other for one address. *)
Definition record_failures (addr : string) (times : list Z)
  (m : gmap string RateEntry) : gmap string RateEntry :=
  fold_left (fun acc t => recordFailedAttempt t addr acc) times m.

(** ** IP allowlist *)

(** [allowed.split("/")[0].split(".").slice(0, 3).join(".")] *)
Definition cidr_prefix (entry : string) : string :=
  JS.join "." (take 3 (JS.split "." (JS.first (JS.split "/" entry)))).

(** The callback handed to [ALLOWED_IPS.some]. *)
Definition allowlist_match (addr entry : string) : bool :=
  if JS.includes "/" entry
  then JS.startsWith addr (cidr_prefix entry)
  else String.eqb addr entry.

Definition checkIPAllowlist (cfg : Config) (addr : string) : bool :=
  match ALLOWED_IPS cfg with
  | [] => true
  | entries => existsb (allowlist_match addr) entries
  end.

(** ** What an operation does to the response and to the audit log *)

(** Of a cookie's options the [httpOnly] flag and [maxAge] (in seconds) are
    kept; [secure], [sameSite: "strict"] and [path: "/"] are the same for
    both cookies. *)
Inductive Effect :=
| Audit (event addr : string) (target : option string)
| SetCookie (name value : string) (httpOnly : bool) (maxAge : Z)
| DeleteCookie (name : string).

(** The object [login] resolves to; absent properties are [None]. *)
Record LoginResult := {
  success : bool;
  error : option string;
  login_remaining : option Z;
  login_retryAfterMs : option Z
}.

(** Everything one call of [login] reads from outside the module, in program
    order: the resolved address, the password, the five [Date.now()] readings
    and the two random tokens. *)
Record LoginCall := {
  caller : string;
  password : string;
  tCheck : Z;
  tRecord : Z;
  tRecheck : Z;
  tCreated : Z;
  tActivity : Z;
  sessionId : string;
  freshCsrf : string
}.

(** [login] either returns before [await bcrypt.compare] or is suspended
    there; other requests run while the comparison is pending. *)
Inductive Suspension :=
| Finished (r : LoginResult) (out : list Effect)
| AwaitCompare.

(** The object [validateSession] resolves to: [{ valid, ip }]. *)
Record Validation := {
  valid : bool;
  client_ip : string
}.

Record AuthError := {
  message : string;
  status : Z
}.

Definition with_rate (st : Store) (m : gmap string RateEntry) : Store :=
  {| activeSession := activeSession st; rateLimitMap := m |}.

Definition with_session (st : Store) (s : option Session) : Store :=
  {| activeSession := s; rateLimitMap := rateLimitMap st |}.

(** A stand-in for HMAC-SHA256 with the shape of a hex digest (64 characters
    of [0-9a-f]); it only serves to run the operations on concrete inputs. *)
Definition hex_digit (a : ascii) : ascii :=
  match a with
  | Ascii b0 b1 b2 b3 _ _ _ _ =>
      match b3, b2, b1, b0 with
      | false, false, false, false => "0"
      | false, false, false, true => "1"
      | false, false, true, false => "2"
      | false, false, true, true => "3"
      | false, true, false, false => "4"
      | false, true, false, true => "5"
      | false, true, true, false => "6"
      | false, true, true, true => "7"
      | true, false, false, false => "8"
      | true, false, false, true => "9"
      | true, false, true, false => "a"
      | true, false, true, true => "b"
      | true, true, false, false => "c"
      | true, true, false, true => "d"
      | true, true, true, false => "e"
      | true, true, true, true => "f"
      end%char
  end.

Fixpoint hex_pad (n : nat) (s : string) : string :=
  match n with
  | O => EmptyString
  | S n' =>
      match s with
      | EmptyString => String "0" (hex_pad n' EmptyString)
      | String a s' => String (hex_digit a) (hex_pad n' s')
      end
  end.

Definition demo_hmac (key msg : string) : string := hex_pad 64 (key +:+ msg).

(** A stand-in for [bcrypt.compare]: the hash is the password. *)
Definition demo_compare (pw hash : string) : bool := String.eqb pw hash.

Section Auth.

Variable hmac_sha256_hex : string -> string -> string.
Variable bcrypt_compare : string -> string -> bool.
Variable cfg : Config.

(** ** Signed cookie values *)

Definition signValue (value : string) : string :=
  value +:+ "." +:+ hmac_sha256_hex (PANEL_SECRET cfg) value.

Definition verifySignedValue (signed : string) : option string :=
  match JS.lastIndexOf "." signed with
  | None => None
  | Some lastDot =>
      let value := JS.slice0 lastDot signed in
      let expected := signValue value in
      if negb (String.eqb expected signed) then None else Some value
  end.

(** ** Auth operations *)

Definition denied : LoginResult :=
  {| success := false; error := Some "Access denied";
     login_remaining := None; login_retryAfterMs := None |}.

Definition throttled (rc : RateCheck) : LoginResult :=
  {| success := false; error := Some "Too many attempts. Try again later.";
     login_remaining := Some 0; login_retryAfterMs := Some (retryAfterMs rc) |}.

Definition unconfigured : LoginResult :=
  {| success := false; error := Some "Panel not configured. Run setup.sh first.";
     login_remaining := None; login_retryAfterMs := None |}.

Definition invalid_password (rc : RateCheck) : LoginResult :=
  {| success := false; error := Some "Invalid password";
     login_remaining := Some (remaining rc); login_retryAfterMs := None |}.

Definition logged_in : LoginResult :=
  {| success := true; error := None;
     login_remaining := None; login_retryAfterMs := None |}.

(** [login] up to its [await bcrypt.compare]. *)
Definition login_begin (c : LoginCall) (st : Store) : Store * Suspension :=
  if negb (checkIPAllowlist cfg (caller c)) then
    (st, Finished denied [Audit "blocked_ip" (caller c) (Some "login")])
  else
    let rateCheck := checkRateLimit (tCheck c) (caller c) (rateLimitMap st) in
    let st1 := with_rate st (snd rateCheck) in
    if negb (allowed (fst rateCheck)) then
      (st1, Finished (throttled (fst rateCheck))
                     [Audit "rate_limited" (caller c) (Some "login")])
    else if negb (JS.truthy (PANEL_PASSWORD_HASH cfg)) then
      (st1, Finished unconfigured [])
    else (st1, AwaitCompare).

(** [login] from the point where [bcrypt.compare] has resolved to [ok]. *)
Definition login_resume (c : LoginCall) (ok : bool) (st : Store)
  : Store * (LoginResult * list Effect) :=
  if negb ok then
    let m1 := recordFailedAttempt (tRecord c) (caller c) (rateLimitMap st) in
    let updated := checkRateLimit (tRecheck c) (caller c) m1 in
    (with_rate st (snd updated),
     (invalid_password (fst updated), [Audit "login_failed" (caller c) None]))
  else
    let m1 := clearRateLimit (caller c) (rateLimitMap st) in
    let session := {| id := sessionId c; csrfToken := freshCsrf c;
                      createdAt := tCreated c; lastActivity := tActivity c;
                      ip := caller c |} in
    ({| activeSession := Some session; rateLimitMap := m1 |},
     (logged_in,
      [SetCookie SESSION_COOKIE (signValue (sessionId c)) true
                 (SESSION_MAX_AGE_MS / 1000);
       SetCookie CSRF_COOKIE (freshCsrf c) false (SESSION_MAX_AGE_MS / 1000);
       Audit "login_success" (caller c) None])).

(** One call of [login] that nothing else interleaves with. *)
Definition login (c : LoginCall) (st : Store)
  : Store * (LoginResult * list Effect) :=
  match login_begin c st with
  | (st1, Finished r out) => (st1, (r, out))
  | (st1, AwaitCompare) =>
      login_resume c (bcrypt_compare (password c) (PANEL_PASSWORD_HASH cfg)) st1
  end.

Definition logout (addr : string) (st : Store) : Store * list Effect :=
  (with_session st None,
   [DeleteCookie SESSION_COOKIE; DeleteCookie CSRF_COOKIE;
    Audit "logout" addr None]).

Definition rejected (addr : string) : Validation :=
  {| valid := false; client_ip := addr |}.

Definition touch (now : Z) (s : Session) : Session :=
  {| id := id s; csrfToken := csrfToken s; createdAt := createdAt s;
     lastActivity := now; ip := ip s |}.

(** [cookie] is [cookieStore.get(SESSION_COOKIE)?.value]. *)
Definition validateSession (addr : string) (cookie : option string) (now : Z)
  (st : Store) : Store * Validation :=
  if negb (checkIPAllowlist cfg addr) then (st, rejected addr)
  else
    match cookie with
    | None => (st, rejected addr)
    | Some sessionCookie =>
        if negb (JS.truthy sessionCookie) then (st, rejected addr)
        else
          match verifySignedValue sessionCookie with
          | None => (st, rejected addr)
          | Some sid =>
              if negb (JS.truthy sid) then (st, rejected addr)
              else
                match activeSession st with
                | None => (st, rejected addr)
                | Some s =>
                    if negb (String.eqb (id s) sid) then (st, rejected addr)
                    else if now - createdAt s >? SESSION_MAX_AGE_MS then
                      (with_session st None, rejected addr)
                    else
                      (with_session st (Some (touch now s)),
                       {| valid := true; client_ip := addr |})
                end
          end
    end.

(** [header] is [h.get(CSRF_HEADER)]. *)
Definition validateCSRF (header : option string) (st : Store) : bool :=
  match activeSession st with
  | None => false
  | Some s =>
      match header with
      | None => false
      | Some csrfHeader =>
          if negb (JS.truthy csrfHeader) then false
          else String.eqb csrfHeader (csrfToken s)
      end
  end.

(** A thrown [AuthError] is the left injection. *)
Definition requireAuth (addr : string) (cookie : option string) (now : Z)
  (st : Store) : Store * (AuthError + string) :=
  let r := validateSession addr cookie now st in
  if negb (valid (snd r))
  then (fst r, inl {| message := "Unauthorized"; status := 401 |})
  else (fst r, inr (client_ip (snd r))).

Definition requireCSRF (header : option string) (st : Store)
  : AuthError + unit :=
  if negb (validateCSRF header st)
  then inl {| message := "Invalid CSRF token"; status := 403 |}
  else inr tt.

Definition verifyPassword (pw : string) : bool :=
  if negb (JS.truthy (PANEL_PASSWORD_HASH cfg)) then false
  else bcrypt_compare pw (PANEL_PASSWORD_HASH cfg).

(** ** Reachable states *)

(** Calls that run one at a time: each exported operation, and the cleanup
    timer, runs to completion before the next one starts. *)
Inductive op_step : Store -> Store -> Prop :=
| op_login c st :
    op_step st (fst (login c st))
| op_logout addr st :
    op_step st (fst (logout addr st))
| op_validateSession addr cookie now st :
    op_step st (fst (validateSession addr cookie now st))
| op_sweep now st :
    op_step st (with_rate st (sweep now (rateLimitMap st))).

Inductive reachable : Store -> Prop :=
| reach_init : reachable initial_store
| reach_step st st' : reachable st -> op_step st st' -> reachable st'.

(** The server as it runs: a [login] suspended at its password comparison
    stays pending while other requests are served. A world is the store
    together with the suspended calls. *)
Definition World : Type := Store * list LoginCall.

Inductive async_step : World -> World -> Prop :=
| as_login_return c st pend st' r out :
    login_begin c st = (st', Finished r out) ->
    async_step (st, pend) (st', pend)
| as_login_suspend c st pend st' :
    login_begin c st = (st', AwaitCompare) ->
    async_step (st, pend) (st', c :: pend)
| as_login_resume c st pend1 pend2 :
    async_step (st, pend1 ++ c :: pend2)
      (fst (login_resume c
              (bcrypt_compare (password c) (PANEL_PASSWORD_HASH cfg)) st),
       pend1 ++ pend2)
| as_logout addr st pend :
    async_step (st, pend) (fst (logout addr st), pend)
| as_validateSession addr cookie now st pend :
    async_step (st, pend) (fst (validateSession addr cookie now st), pend)
| as_sweep now st pend :
    async_step (st, pend) (with_rate st (sweep now (rateLimitMap st)), pend).

Inductive async_reachable : World -> Prop :=
| areach_init : async_reachable (initial_store, [])
| areach_step w w' : async_reachable w -> async_step w w' -> async_reachable w'.

(** The bound the rate-limit table keeps while calls do not overlap. *)
Definition entry_bounded (e : RateEntry) : Prop :=
  attempts e <= LOGIN_MAX_ATTEMPTS /\ lockedUntil e = 0.

Definition table_bounded (m : gmap string RateEntry) : Prop :=
  forall addr e, m !! addr = Some e -> entry_bounded e.

End Auth.

(** ** Runs in which logins of one address do not overlap *)

(** No two of the suspended logins come from the same address. *)
Definition apart (w : World) : Prop := NoDup (map caller (snd w)).

Section SeparateRuns.

Variable hmac_sha256_hex : string -> string -> string.
Variable bcrypt_compare : string -> string -> bool.
Variable cfg : Config.

(** The runs of the server in which a [login] is never suspended at its
    password comparison while another [login] of the same address is.
    Logins of different addresses, [logout], [validateSession] and the
    cleanup timer interleave freely. *)
Inductive apart_reachable : World -> Prop :=
| apart_init : apart_reachable (initial_store, [])
| apart_next w w' :
    apart_reachable w ->
    async_step hmac_sha256_hex bcrypt_compare cfg w w' ->
    apart w' ->
    apart_reachable w'.

End SeparateRuns.

(** ** Concrete configurations and calls on which the operations are run *)

Definition open_cfg : Config :=
  {| PANEL_SECRET := "dev-secret-change-me";
     PANEL_PASSWORD_HASH := "hunter2";
     ALLOWED_IPS := [] |}.

Definition strict_cfg : Config :=
  {| PANEL_SECRET := "dev-secret-change-me";
     PANEL_PASSWORD_HASH := "hunter2";
     ALLOWED_IPS := ["10.0.0.5"] |}.

Definition unset_cfg : Config :=
  {| PANEL_SECRET := "dev-secret-change-me";
     PANEL_PASSWORD_HASH := "";
     ALLOWED_IPS := [] |}.

(** A call whose five clock readings are [t], [t+250] (twice) and [t+251]
    (twice): the password comparison takes a quarter of a second. *)
Definition call_at (addr pw : string) (t : Z) (sid csrf : string) : LoginCall :=
  {| caller := addr; password := pw;
     tCheck := t; tRecord := t + 250; tRecheck := t + 250;
     tCreated := t + 251; tActivity := t + 251;
     sessionId := sid; freshCsrf := csrf |}.

Definition entry_of (n first locked : Z) : RateEntry :=
  {| attempts := n; firstAttempt := first; lockedUntil := locked |}.

(** Replacing the character at position [i] of a string by [c]: what an
    attacker does to one character of a cookie's signature. *)
Fixpoint tamper (i : nat) (c : ascii) (s : string) : string :=
  match s with
  | EmptyString => EmptyString
  | String a s' =>
      match i with
      | O => String c s'
      | S i' => String a (tamper i' c s')
      end
  end.

(** The store after [n] suspended logins of the same call [c] have been
    resumed one after the other, each with a failed password comparison. *)
Definition resume_failed (hmac : string -> string -> string) (cfg : Config)
  (c : LoginCall) (n : nat) (st : Store) : Store :=
  Nat.iter n (fun st0 => fst (login_resume hmac cfg c false st0)) st.

(** A wrong guess from one address. *)
Definition guess : LoginCall := call_at "203.0.113.9" "letmein" 0 "" "".

(** The session object a successful [login] stores. *)
Definition issued (c : LoginCall) : Session :=
  {| id := sessionId c; csrfToken := freshCsrf c;
     createdAt := tCreated c; lastActivity := tActivity c; ip := caller c |}.

(** An allowlist with one literal address and one range. *)
Definition mixed_cfg : Config :=
  {| PANEL_SECRET := "dev-secret-change-me";
     PANEL_PASSWORD_HASH := "hunter2";
     ALLOWED_IPS := ["10.0.0.5"; "192.168.1.0/16"] |}.

(** The operator logs in from the allowlisted address at instant 0. *)
Definition office_login : LoginCall :=
  call_at "10.0.0.5" "hunter2" 0
    "3f2b8c1e-7a64-4d09-9b1f-52c1d0e7a001" "c0ffee00c0ffee00".

(** A later login of the operator, with fresh tokens. *)
Definition second_login : LoginCall :=
  call_at "10.0.0.5" "hunter2" 60000
    "9d1c44aa-02be-4f6e-8c3a-77e0b5f2a002" "deadbeefdeadbeef".

Definition office_store : Store :=
  fst (login demo_hmac demo_compare strict_cfg office_login initial_store).

Definition office_cookie : string :=
  signValue demo_hmac strict_cfg (sessionId office_login).

(** The store after [n] calls of [login] with the wrong guess, one after the
    other, the [k]-th one starting at instant [1000 * k]. *)
Fixpoint guesses_in_turn (n : nat) : Store :=
  match n with
  | O => initial_store
  | S n' =>
      fst (login demo_hmac demo_compare open_cfg
             (call_at "203.0.113.9" "letmein" (1000 * Z.of_nat n') "" "")
             (guesses_in_turn n'))
  end.

(** ** More string primitives *)

(** From here on a character is a code unit below 256: the range in which
    HTTP header values reach a handler, and in which unit files, environment
    files and command output are taken. *)
Module Text.

(** The code units below 256 that [trim] strips: TAB, LF, VT, FF, CR, space
    and the no-break space. *)
Definition is_space (a : ascii) : bool :=
  match N_of_ascii a with
  | 9 | 10 | 11 | 12 | 13 | 32 | 160 => true
  | _ => false
  end%N.

Fixpoint trimStart (s : string) : string :=
  match s with
  | EmptyString => EmptyString
  | String a s' => if is_space a then trimStart s' else s
  end.

Fixpoint trimEnd (s : string) : string :=
  match s with
  | EmptyString => EmptyString
  | String a s' =>
      match trimEnd s' with
      | EmptyString => if is_space a then EmptyString else String a EmptyString
      | t => String a t
      end
  end.

(** [s.trim()]. *)
Definition trim (s : string) : string := trimEnd (trimStart s).

(** [s.indexOf(c)]: [None] stands for [-1]. *)
Fixpoint indexOf (c : ascii) (s : string) : option nat :=
  match s with
  | EmptyString => None
  | String a s' =>
      if Ascii.eqb a c then Some 0%nat
      else match indexOf c s' with
           | Some i => Some (S i)
           | None => None
           end
  end.

(** [s.slice(n)] for [0 <= n]. *)
Fixpoint sliceFrom (n : nat) (s : string) : string :=
  match n, s with
  | O, _ => s
  | S n', String _ s' => sliceFrom n' s'
  | S _, EmptyString => EmptyString
  end.

(** [s.endsWith(suffix)]. *)
Fixpoint endsWith (s suffix : string) : bool :=
  String.eqb s suffix
  || match s with
     | EmptyString => false
     | String _ s' => endsWith s' suffix
     end.

(** [s.includes(needle)] for a needle of any length. *)
Fixpoint includesStr (s needle : string) : bool :=
  JS.startsWith s needle
  || match s with
     | EmptyString => false
     | String _ s' => includesStr s' needle
     end.

End Text.

(** ** The caller's address *)

(** [h.get(name)?.split(",")[0]?.trim()]. *)
Definition first_forwarded (forwarded : option string) : option string :=
  match forwarded with
  | Some v => Some (Text.trim (JS.first (JS.split "," v)))
  | None => None
  end.

(** [a || b] on values that are strings or absent. *)
Definition or_else (a : option string) (b : option string) : option string :=
  match a with
  | Some s => if JS.truthy s then a else b
  | None => b
  end.

(** [getClientIP]: [forwarded] is [h.get("x-forwarded-for")] and [real] is
    [h.get("x-real-ip")]. *)
Definition getClientIP (forwarded real : option string) : string :=
  match or_else (or_else (first_forwarded forwarded) real) (Some "unknown") with
  | Some s => s
  | None => EmptyString
  end.

(** ** Shell execution ([lib/shell.ts]) *)

Definition ALLOWED_COMMANDS : list string :=
  ["systemctl"; "journalctl"; "sudo"; "hostname"; "uptime"; "free"; "df";
   "cat"; "tee"; "cp"; "ls"].

Definition SYSTEMCTL_ACTIONS : list string :=
  ["start"; "stop"; "restart"; "status"; "show"; "is-active"; "list-units"].

(** [set.has(x)] for a set of strings given by its elements. *)
Definition set_has (elements : list string) (x : string) : bool :=
  existsb (String.eqb x) elements.

Definition in_range (lo hi a : ascii) : bool :=
  (N_of_ascii lo <=? N_of_ascii a)%N && (N_of_ascii a <=? N_of_ascii hi)%N.

Definition is_digit (a : ascii) : bool := in_range "0" "9" a.

(** The character class [[a-zA-Z0-9_-]]. *)
Definition is_name_char (a : ascii) : bool :=
  in_range "a" "z" a || in_range "A" "Z" a || is_digit a
  || Ascii.eqb a "_" || Ascii.eqb a "-".

Fixpoint all_chars (p : ascii -> bool) (s : string) : bool :=
  match s with
  | EmptyString => true
  | String a s' => p a && all_chars p s'
  end.

(** [SERVICE_NAME_RE.test(s)] for [/^[a-zA-Z0-9_-]+$/]. *)
Definition SERVICE_NAME_RE_test (s : string) : bool :=
  JS.truthy s && all_chars is_name_char s.

Definition validateServiceName (name : string) : bool :=
  SERVICE_NAME_RE_test name && (String.length name <=? 128)%nat.

Definition validateAction (action : string) : bool :=
  set_has SYSTEMCTL_ACTIONS action.

(** [err.code] of a failed [execFile]: an exit status or a name such as
    [ENOENT]. *)
Inductive ErrorCode :=
| ExitStatus (n : Z)
| ErrorName (s : string).

Record ShellError := {
  shell_message : string;
  code : option ErrorCode;
  stderr : string
}.

(** What [execFileAsync] does: it resolves to the captured output or rejects
    with an error that may carry a message, a code and the captured stderr. *)
Inductive ExecOutcome :=
| ExecOk (out err : string)
| ExecFail (msg : option string) (err_code : option ErrorCode)
           (err : option string).

(** The test on one argument in [safeExec]'s loop. *)
Definition dangerous (arg : string) : bool :=
  JS.includes ";" arg || JS.includes "|" arg || JS.includes "&" arg
  || JS.includes "`" arg || Text.includesStr arg "$(".

(** [`${x}`] for [x : string | undefined]. *)
Definition show_opt (x : option string) : string :=
  match x with
  | Some s => s
  | None => "undefined"
  end.

(** [s || fallback] for [s : string | undefined]. *)
Definition or_default (s : option string) (fallback : string) : string :=
  match s with
  | Some v => if JS.truthy v then v else fallback
  | None => fallback
  end.

(** [/^[0-9]+[smhd]$/.test(s)] *)
Fixpoint dropDigits (s : string) : string :=
  match s with
  | EmptyString => EmptyString
  | String a s' => if is_digit a then dropDigits s' else s
  end.

Definition is_unit (a : ascii) : bool :=
  Ascii.eqb a "s" || Ascii.eqb a "m" || Ascii.eqb a "h" || Ascii.eqb a "d".

Definition since_relative (s : string) : bool :=
  match s with
  | EmptyString => false
  | String a _ =>
      is_digit a
      && match dropDigits s with
         | String u EmptyString => is_unit u
         | _ => false
         end
  end.

(** [/^\d{4}-\d{2}-\d{2}/.test(s)] *)
Definition since_date (s : string) : bool :=
  match s with
  | String y1 (String y2 (String y3 (String y4 (String h1
      (String m1 (String m2 (String h2 (String d1 (String d2 _))))))))) =>
      is_digit y1 && is_digit y2 && is_digit y3 && is_digit y4
      && Ascii.eqb h1 "-" && is_digit m1 && is_digit m2
      && Ascii.eqb h2 "-" && is_digit d1 && is_digit d2
  | _ => false
  end.

(** The characters none of which [safeExec] lets through in an argument:
    any of [; | & `], and [$] since [$(] needs one. *)
Definition meta_free (a : ascii) : bool :=
  negb (Ascii.eqb a ";" || Ascii.eqb a "|" || Ascii.eqb a "&"
        || Ascii.eqb a "`" || Ascii.eqb a "$").

Section Shell.

(** [execFileAsync(command, args, { timeout, maxBuffer: 1024 * 1024 })] *)
Variable execFile : string -> list string -> Z -> ExecOutcome.

(** [String(n)] for a number. *)
Variable String_of_number : Z -> string.

(** [timeout] is [options?.timeout]. *)
Definition safeExec (command : string) (args : list string)
  (timeout : option Z) : ShellError + (string * string) :=
  let actualCommand :=
    if String.eqb command "sudo" then head args else Some command in
  if negb (match actualCommand with Some a => JS.truthy a | None => false end)
     || negb (match actualCommand with
              | Some a => set_has ALLOWED_COMMANDS a
              | None => false
              end)
  then inl {| shell_message := "Command not allowed: " +:+ show_opt actualCommand;
              code := None; stderr := "" |}
  else
    match find dangerous args with
    | Some arg =>
        inl {| shell_message := "Dangerous characters in argument: " +:+ arg;
               code := None; stderr := "" |}
    | None =>
        match execFile command args (default 10000 timeout) with
        | ExecOk out err => inr (out, err)
        | ExecFail msg err_code err =>
            inl {| shell_message := or_default msg "Command failed";
                   code := err_code; stderr := or_default err "" |}
        end
    end.

Definition unit_of (serviceName : string) : string :=
  if Text.endsWith serviceName ".service" then serviceName
  else serviceName +:+ ".service".

Definition systemctl (action serviceName : string) : ShellError + string :=
  if negb (validateAction action) then
    inl {| shell_message := "Invalid systemctl action: " +:+ action;
           code := None; stderr := "" |}
  else if negb (validateServiceName serviceName) then
    inl {| shell_message := "Invalid service name: " +:+ serviceName;
           code := None; stderr := "" |}
  else
    match safeExec "sudo" ["systemctl"; action; unit_of serviceName] None with
    | inl e => inl e
    | inr (out, _) => inr (Text.trim out)
    end.

(** The argument array [journalctl] builds. [lines] is [options?.lines],
    with [None] for an absent value and for [NaN]; [since] is
    [options?.since]. *)
Definition journalctl_args (serviceName : string) (lines : option Z)
  (since : option string) : list string :=
  let args :=
    ["journalctl"; "-u"; unit_of serviceName; "--no-pager"; "-o"; "short-iso"] in
  let args :=
    match lines with
    | Some n =>
        if n =? 0 then args ++ ["-n"; "100"]
        else args ++ ["-n"; String_of_number (Z.min n 500)]
    | None => args ++ ["-n"; "100"]
    end in
  match since with
  | Some s =>
      if JS.truthy s && (since_relative s || since_date s)
      then args ++ ["--since"; s]
      else args
  | None => args
  end.

Definition journalctl (serviceName : string) (lines : option Z)
  (since : option string) : ShellError + string :=
  if negb (validateServiceName serviceName) then
    inl {| shell_message := "Invalid service name: " +:+ serviceName;
           code := None; stderr := "" |}
  else
    match safeExec "sudo" (journalctl_args serviceName lines since)
            (Some 15000) with
    | inl e => inl e
    | inr (out, _) => inr out
    end.

End Shell.

(** ** Service files ([lib/services.ts]) *)

Module Env.

(** One [{ key, value }] object. *)
Record entry := {
  key : string;
  value : string
}.

End Env.

(** The line feed, ["\n"]. *)
Definition LF : ascii := "010"%char.

(** The body of [readEnvFile]'s loop for one line: the entry it pushes, if
    any. *)
Definition env_line_entry (line : string) : option Env.entry :=
  let trimmed := Text.trim line in
  if negb (JS.truthy trimmed) || JS.startsWith trimmed "#" then None
  else
    match Text.indexOf "=" trimmed with
    | Some eq =>
        if (0 <? eq)%nat then
          Some {| Env.key := JS.slice0 eq trimmed;
                  Env.value := Text.sliceFrom (S eq) trimmed |}
        else None
    | None => None
    end.

(** The entries [readEnvFile] collects from the output of [cat]. *)
Definition env_entries (stdout : string) : list Env.entry :=
  omap env_line_entry (JS.split LF stdout).

(** The text [writeEnvFile] sends to [tee]:
    [entries.map((e) => `${e.key}=${e.value}`).join("\n") + "\n"]. *)
Definition env_content (entries : list Env.entry) : string :=
  JS.join (String LF "")
    (map (fun e => Env.key e +:+ "=" +:+ Env.value e) entries)
  +:+ String LF "".

(** [Partial<ServiceInfo>] as [parseUnitFile] fills it. *)
Record UnitProps := {
  description : option string;
  workingDir : option string;
  envFile : option string;
  execStart : option string
}.

Definition no_props : UnitProps :=
  {| description := None; workingDir := None; envFile := None;
     execStart := None |}.

(** The body of [parseUnitFile]'s loop for one line. *)
Definition unit_line (result : UnitProps) (line : string) : UnitProps :=
  let trimmed := Text.trim line in
  if JS.startsWith trimmed "Description=" then
    {| description := Some (Text.sliceFrom (String.length "Description=") trimmed);
       workingDir := workingDir result; envFile := envFile result;
       execStart := execStart result |}
  else if JS.startsWith trimmed "WorkingDirectory=" then
    {| description := description result;
       workingDir :=
         Some (Text.sliceFrom (String.length "WorkingDirectory=") trimmed);
       envFile := envFile result; execStart := execStart result |}
  else if JS.startsWith trimmed "EnvironmentFile=" then
    {| description := description result; workingDir := workingDir result;
       envFile :=
         Some (Text.sliceFrom (String.length "EnvironmentFile=") trimmed);
       execStart := execStart result |}
  else if JS.startsWith trimmed "ExecStart=" then
    {| description := description result; workingDir := workingDir result;
       envFile := envFile result;
       execStart := Some (Text.sliceFrom (String.length "ExecStart=") trimmed) |}
  else result.

Definition parseUnitFile (content : string) : UnitProps :=
  fold_left unit_line (JS.split LF content) no_props.

(** The properties of the second record where it has them, else those of
    the first. *)
Definition override (first second : UnitProps) : UnitProps :=
  {| description := from_option Some (description first) (description second);
     workingDir := from_option Some (workingDir first) (workingDir second);
     envFile := from_option Some (envFile first) (envFile second);
     execStart := from_option Some (execStart first) (execStart second) |}.

(** What makes a list of entries come back unchanged from the file. *)
Definition storable (e : Env.entry) : Prop :=
  Env.key e <> ""
  /\ Text.trimStart (Env.key e) = Env.key e
  /\ JS.startsWith (Env.key e) "#" = false
  /\ JS.includes "=" (Env.key e) = false
  /\ JS.includes LF (Env.key e) = false
  /\ JS.includes LF (Env.value e) = false
  /\ Text.trimEnd (Env.value e) = Env.value e.

(** A string that is not empty and starts with no blank. *)
Definition starts_clean (s : string) : Prop :=
  match s with
  | EmptyString => False
  | String a _ => Text.is_space a = false
  end.

Section Services.

Variable execFile : string -> list string -> Z -> ExecOutcome.

(** [readEnvFile]: any failure of [cat] yields the empty list. *)
Definition readEnvFile (envPath : string) : list Env.entry :=
  match safeExec execFile "sudo" ["cat"; envPath] None with
  | inl _ => []
  | inr (stdout, _) => env_entries stdout
  end.

End Services.

(** ** The request filter ([proxy.ts]) *)

Definition PUBLIC_PATHS : list string := ["/login"; "/api/auth/login"].

(** What [proxy] answers: the request is passed on with the response headers
    it has set, or the browser is sent to another path. *)
Inductive ProxyResponse :=
| PassOn (headers : list (string * string))
| RedirectTo (pathname : string).

Definition security_headers (production : bool) : list (string * string) :=
  [("X-Content-Type-Options", "nosniff");
   ("X-Frame-Options", "DENY");
   ("Referrer-Policy", "strict-origin");
   ("Content-Security-Policy",
    "default-src 'self'; script-src 'self' 'unsafe-inline' 'unsafe-eval'; style-src 'self' 'unsafe-inline'; img-src 'self' data:; font-src 'self'; connect-src 'self';")]
  ++ (if production
      then [("Strict-Transport-Security",
             "max-age=63072000; includeSubDomains; preload")]
      else []).

Definition is_public (pathname : string) : bool :=
  existsb (fun p => String.eqb pathname p || JS.startsWith pathname (p +:+ "/"))
    PUBLIC_PATHS.

(** [production] is [process.env.NODE_ENV === "production"]; [sessionCookie]
    is [req.cookies.get("lsp_session")?.value]. *)
Definition proxy (production : bool) (pathname : string)
  (sessionCookie : option string) : ProxyResponse :=
  if JS.startsWith pathname "/_next" || JS.startsWith pathname "/favicon" then
    PassOn []
  else if is_public pathname then PassOn (security_headers production)
  else if negb (match sessionCookie with
                | Some v => JS.truthy v
                | None => false
                end)
          && negb (JS.startsWith pathname "/api/")
  then RedirectTo "/login"
  else PassOn (security_headers production).

(** ** The login and logout routes *)

(** The JSON body of a response of the two routes; absent properties are
    [None], and [json_success] is the property [success: true]. *)
Record HttpResponse := {
  http_status : Z;
  json_error : option string;
  json_remaining : option Z;
  json_retryAfterMs : option Z;
  json_success : bool
}.

Definition error_response (code : Z) (msg : string) : HttpResponse :=
  {| http_status := code; json_error := Some msg; json_remaining := None;
     json_retryAfterMs := None; json_success := false |}.

Definition success_response : HttpResponse :=
  {| http_status := 200; json_error := None; json_remaining := None;
     json_retryAfterMs := None; json_success := true |}.

(** What the login route finds in the request: a body that is not JSON, a
    body whose [password] is absent or not a string, or a string. *)
Inductive PasswordField :=
| BadJson
| NoPassword
| Password (s : string).

Definition with_password (c : LoginCall) (pw : string) : LoginCall :=
  {| caller := caller c; password := pw;
     tCheck := tCheck c; tRecord := tRecord c; tRecheck := tRecheck c;
     tCreated := tCreated c; tActivity := tActivity c;
     sessionId := sessionId c; freshCsrf := freshCsrf c |}.

Section Routes.

Variable hmac_sha256_hex : string -> string -> string.
Variable bcrypt_compare : string -> string -> bool.
Variable cfg : Config.

(** [POST /api/auth/login]; of [c] everything but the password is used. *)
Definition login_route (field : PasswordField) (c : LoginCall) (st : Store)
  : Store * (HttpResponse * list Effect) :=
  match field with
  | BadJson => (st, (error_response 500 "Internal error", []))
  | NoPassword => (st, (error_response 400 "Password required", []))
  | Password pw =>
      if negb (JS.truthy pw) then
        (st, (error_response 400 "Password required", []))
      else
        let r := login hmac_sha256_hex bcrypt_compare cfg (with_password c pw) st in
        let result := fst (snd r) in
        if negb (success result) then
          (fst r,
           ({| http_status := 401; json_error := error result;
               json_remaining := login_remaining result;
               json_retryAfterMs := login_retryAfterMs result;
               json_success := false |},
            snd (snd r)))
        else (fst r, (success_response, snd (snd r)))
  end.

(** [POST /api/auth/logout]. *)
Definition logout_route (addr : string) (cookie header : option string)
  (now : Z) (st : Store) : Store * (HttpResponse * list Effect) :=
  match requireAuth hmac_sha256_hex cfg addr cookie now st with
  | (st1, inl e) => (st1, (error_response (status e) (message e), []))
  | (st1, inr _) =>
      match requireCSRF header st1 with
      | inl e => (st1, (error_response (status e) (message e), []))
      | inr _ =>
          let r := logout addr st1 in
          (fst r, (success_response, snd r))
      end
  end.

End Routes.

(** [String(n)] for an integer that JavaScript prints in plain decimal
    notation; it serves to run [journalctl] on concrete inputs. *)
Definition decimal (n : Z) : string := NilZero.string_of_int (Z.to_int n).

(** An [execFile] that prints what it was asked to run. *)
Definition echo_exec (command : string) (args : list string) (timeout : Z)
  : ExecOutcome :=
  ExecOk (JS.join " " (command :: args) +:+ " ") "".

(** What holds of every suspended login: its caller has no entry or one with
    fewer than five attempts. *)
Definition pending_ok (m : gmap string RateEntry) (d : LoginCall) : Prop :=
  match m !! caller d with
  | None => True
  | Some e => attempts e < LOGIN_MAX_ATTEMPTS
  end.

(** A wrong guess from a second address, started while the first one is
    being compared. *)
Definition other_guess : LoginCall := call_at "198.51.100.4" "letmein" 100 "" "".

(** The store after [guess] and [other_guess] were both suspended and then
    both resumed. *)
Definition two_addresses : Store :=
  fst (login_resume demo_hmac open_cfg other_guess false
         (fst (login_resume demo_hmac open_cfg guess false initial_store))).

(** * Properties *)

(** Splits a [Forall] over an explicit list into its members. *)
Ltac split_window H :=
  repeat match type of H with
         | Forall _ (_ :: _) =>
             let Hh := fresh "Hin" in apply Forall_cons in H as [Hh H]
         end.


(** ** The rate limiter *)

Lemma checkRateLimit_none now addr (m : gmap string RateEntry) :
  m !! addr = None -> checkRateLimit now addr m = (full_budget, m).
Proof. intros H. unfold checkRateLimit. by rewrite H. Qed.

Lemma checkRateLimit_locked now addr (m : gmap string RateEntry) e :
  m !! addr = Some e -> now < lockedUntil e ->
  checkRateLimit now addr m =
  ({| allowed := false; remaining := 0; retryAfterMs := lockedUntil e - now |}, m).
Proof.
  intros H Hl. unfold checkRateLimit. rewrite H.
  destruct (Z.gtb_spec (lockedUntil e) now); [done | lia].
Qed.

Lemma checkRateLimit_expired now addr (m : gmap string RateEntry) e :
  m !! addr = Some e -> lockedUntil e <= now ->
  LOGIN_WINDOW_MS < now - firstAttempt e ->
  checkRateLimit now addr m = (full_budget, delete addr m).
Proof.
  intros H Hl Hw. unfold checkRateLimit. rewrite H.
  destruct (Z.gtb_spec (lockedUntil e) now); [lia |].
  destruct (Z.gtb_spec (now - firstAttempt e) LOGIN_WINDOW_MS); [done | lia].
Qed.

Lemma checkRateLimit_counting now addr (m : gmap string RateEntry) e :
  m !! addr = Some e -> lockedUntil e <= now ->
  now - firstAttempt e <= LOGIN_WINDOW_MS ->
  checkRateLimit now addr m =
  ({| allowed := LOGIN_MAX_ATTEMPTS - attempts e >? 0;
      remaining := Z.max 0 (LOGIN_MAX_ATTEMPTS - attempts e);
      retryAfterMs := 0 |}, m).
Proof.
  intros H Hl Hw. unfold checkRateLimit. rewrite H.
  destruct (Z.gtb_spec (lockedUntil e) now); [lia |].
  destruct (Z.gtb_spec (now - firstAttempt e) LOGIN_WINDOW_MS); [lia | done].
Qed.

(** A check that reports [allowed] leaves the caller without an entry or with
    an unlocked entry of fewer than five attempts. *)
Lemma checkRateLimit_allowed now addr (m : gmap string RateEntry) :
  allowed (fst (checkRateLimit now addr m)) = true ->
  match snd (checkRateLimit now addr m) !! addr with
  | None => True
  | Some e => m !! addr = Some e /\ attempts e < LOGIN_MAX_ATTEMPTS
  end.
Proof.
  unfold checkRateLimit. destruct (m !! addr) as [e|] eqn:H; simpl.
  - destruct (lockedUntil e >? now); simpl; [done |].
    destruct (now - firstAttempt e >? LOGIN_WINDOW_MS); simpl.
    + intros _. by rewrite lookup_delete_eq.
    + intros Ha. rewrite H. split; [done |].
      apply Z.gtb_lt in Ha. lia.
  - intros _. by rewrite H.
Qed.

(** A check never adds an entry and never changes one: it keeps the table or
    deletes the caller's entry. *)
Lemma checkRateLimit_table now addr (m : gmap string RateEntry) :
  snd (checkRateLimit now addr m) = m \/
  snd (checkRateLimit now addr m) = delete addr m.
Proof.
  unfold checkRateLimit. destruct (m !! addr) as [e|]; simpl; [| by left].
  destruct (lockedUntil e >? now); simpl; [by left |].
  destruct (now - firstAttempt e >? LOGIN_WINDOW_MS); simpl; [by right | by left].
Qed.

Lemma checkRateLimit_refused_table now addr (m : gmap string RateEntry) :
  allowed (fst (checkRateLimit now addr m)) = false ->
  snd (checkRateLimit now addr m) = m.
Proof.
  unfold checkRateLimit. destruct (m !! addr) as [e|]; simpl; [| done].
  destruct (lockedUntil e >? now); simpl; [done |].
  destruct (now - firstAttempt e >? LOGIN_WINDOW_MS); simpl; done.
Qed.

Lemma recordFailedAttempt_other now addr other (m : gmap string RateEntry) :
  addr <> other -> recordFailedAttempt now addr m !! other = m !! other.
Proof.
  intros Hne. unfold recordFailedAttempt.
  destruct (m !! addr) as [e|]; [destruct (_ >? _) |]; by rewrite lookup_insert_ne.
Qed.

Lemma recordFailedAttempt_first now addr (m : gmap string RateEntry) :
  m !! addr = None ->
  recordFailedAttempt now addr m !! addr = Some (fresh_entry now).
Proof.
  intros H. unfold recordFailedAttempt. rewrite H. apply lookup_insert_eq.
Qed.

Lemma recordFailedAttempt_again now addr (m : gmap string RateEntry) e :
  m !! addr = Some e -> now - firstAttempt e <= LOGIN_WINDOW_MS ->
  recordFailedAttempt now addr m !! addr = Some (bump_entry now e).
Proof.
  intros H Hw. unfold recordFailedAttempt. rewrite H.
  destruct (Z.gtb_spec (now - firstAttempt e) LOGIN_WINDOW_MS); [lia |].
  apply lookup_insert_eq.
Qed.

(** Failures that all fall into the window of an unlocked entry only count up,
    as long as the lockout threshold is not reached. *)
Lemma record_failures_count addr (times : list Z) :
  forall (m : gmap string RateEntry) e,
    m !! addr = Some e ->
    lockedUntil e = 0 ->
    Forall (fun t => t - firstAttempt e <= LOGIN_WINDOW_MS) times ->
    attempts e + Z.of_nat (length times) < LOCKOUT_ATTEMPTS ->
    record_failures addr times m !! addr =
    Some (entry_of (attempts e + Z.of_nat (length times)) (firstAttempt e) 0).
Proof.
  induction times as [| t times IH]; intros m e Hm Hl Hall Hn.
  - simpl. rewrite Hm, Z.add_0_r. destruct e; simpl in *. by subst.
  - inversion Hall as [| ? ? Ht Hrest]; subst.
    cbn [record_failures fold_left].
    change (fold_left _ times ?m0) with (record_failures addr times m0).
    assert (Hb : recordFailedAttempt t addr m !! addr = Some (bump_entry t e))
      by (by apply recordFailedAttempt_again).
    rewrite (IH _ _ Hb).
    + unfold bump_entry; simpl. f_equal. unfold entry_of. f_equal.
      rewrite Nat2Z.inj_succ. lia.
    + unfold bump_entry; simpl.
      rewrite length_cons, Nat2Z.inj_succ in Hn.
      destruct (Z.geb_spec (attempts e + 1) LOCKOUT_ATTEMPTS); [lia | done].
    + done.
    + unfold bump_entry; simpl.
      rewrite length_cons, Nat2Z.inj_succ in Hn. lia.
Qed.

Lemma record_failures_from_empty_slot addr t1 (times : list Z)
  (m : gmap string RateEntry) :
  m !! addr = None ->
  Forall (fun t => t - t1 <= LOGIN_WINDOW_MS) times ->
  Z.of_nat (length (t1 :: times)) < LOCKOUT_ATTEMPTS ->
  record_failures addr (t1 :: times) m !! addr =
  Some (entry_of (Z.of_nat (length (t1 :: times))) t1 0).
Proof.
  intros Hm Hall Hn. cbn [record_failures fold_left].
  change (fold_left _ times ?m0) with (record_failures addr times m0).
  rewrite (record_failures_count addr times _ (fresh_entry t1)).
  - cbn [fresh_entry attempts firstAttempt].
    rewrite length_cons, Nat2Z.inj_succ. unfold entry_of. do 2 f_equal. lia.
  - by apply recordFailedAttempt_first.
  - done.
  - done.
  - rewrite length_cons, Nat2Z.inj_succ in Hn.
    cbn [fresh_entry attempts]. lia.
Qed.

(** C2. Without an entry for the address, [checkRateLimit] reports allowed,
    the full budget of 5 and no retry delay. For an entry that is neither
    locked nor older than the window, it reports
    [remaining = max 0 (5 - attempts)], no retry delay, and allowed exactly
    when [5 - attempts] is positive. In particular, after four failures
    recorded within one window for an address that had no entry, the check
    reports allowed with 1 remaining, and after the fifth it reports not
    allowed with 0 remaining. *)
Theorem checkRateLimit_budget (now : Z) (addr : string)
  (m : gmap string RateEntry) :
  (m !! addr = None ->
   fst (checkRateLimit now addr m) =
   {| allowed := true; remaining := 5; retryAfterMs := 0 |})
  /\ (forall e,
        m !! addr = Some e ->
        lockedUntil e <= now ->
        now - firstAttempt e <= LOGIN_WINDOW_MS ->
        let r := fst (checkRateLimit now addr m) in
        remaining r = Z.max 0 (LOGIN_MAX_ATTEMPTS - attempts e)
        /\ retryAfterMs r = 0
        /\ (allowed r = true <-> 0 < LOGIN_MAX_ATTEMPTS - attempts e))
  /\ (forall t1 t2 t3 t4,
        m !! addr = None ->
        Forall (fun t => t - t1 <= LOGIN_WINDOW_MS) [t2; t3; t4; now] ->
        0 <= now ->
        fst (checkRateLimit now addr
               (record_failures addr [t1; t2; t3; t4] m)) =
        {| allowed := true; remaining := 1; retryAfterMs := 0 |})
  /\ (forall t1 t2 t3 t4 t5,
        m !! addr = None ->
        Forall (fun t => t - t1 <= LOGIN_WINDOW_MS) [t2; t3; t4; t5; now] ->
        0 <= now ->
        fst (checkRateLimit now addr
               (record_failures addr [t1; t2; t3; t4; t5] m)) =
        {| allowed := false; remaining := 0; retryAfterMs := 0 |}).
Proof.
  split; [| split; [| split]].
  - intros H. by rewrite checkRateLimit_none.
  - intros e H Hl Hw. rewrite (checkRateLimit_counting _ _ _ e) by done.
    simpl. repeat split; [apply Z.gtb_lt | intros; by apply Z.gtb_lt].
  - intros t1 t2 t3 t4 H Hall Hnow. split_window Hall.
    rewrite (checkRateLimit_counting _ _ _ (entry_of 4 t1 0));
      [done | | simpl; lia | simpl; lia].
    apply (record_failures_from_empty_slot addr t1 [t2; t3; t4]);
      [done | by repeat constructor | simpl; unfold LOCKOUT_ATTEMPTS; lia].
  - intros t1 t2 t3 t4 t5 H Hall Hnow. split_window Hall.
    rewrite (checkRateLimit_counting _ _ _ (entry_of 5 t1 0));
      [done | | simpl; lia | simpl; lia].
    apply (record_failures_from_empty_slot addr t1 [t2; t3; t4; t5]);
      [done | by repeat constructor | simpl; unfold LOCKOUT_ATTEMPTS; lia].
Qed.

(** C3. While [now < lockedUntil], [checkRateLimit] reports not allowed, 0
    remaining and [retryAfterMs = lockedUntil - now], and leaves the table as
    it is; the age of the window plays no part. *)
Theorem checkRateLimit_lockout_first (now : Z) (addr : string)
  (m : gmap string RateEntry) (e : RateEntry) :
  m !! addr = Some e ->
  now < lockedUntil e ->
  checkRateLimit now addr m =
  ({| allowed := false; remaining := 0; retryAfterMs := lockedUntil e - now |}, m).
Proof. apply checkRateLimit_locked. Qed.

(** ** Strings *)

Lemma string_length_app (a b : string) :
  String.length (a +:+ b) = (String.length a + String.length b)%nat.
Proof. induction a as [| c a IH]; simpl; [done | by rewrite IH]. Qed.

Lemma string_app_inv (a b x y : string) :
  String.length a = String.length b ->
  a +:+ x = b +:+ y -> a = b /\ x = y.
Proof.
  revert b. induction a as [| c a IH]; intros [| d b] Hlen Heq;
    simpl in *; try discriminate.
  - done.
  - injection Heq as -> Heq. injection Hlen as Hlen.
    destruct (IH b Hlen Heq) as [-> ->]. done.
Qed.

Lemma char_app (c : ascii) (s : string) : String c "" +:+ s = String c s.
Proof. reflexivity. Qed.

Lemma string_app_assoc (a b c : string) : (a +:+ b) +:+ c = a +:+ b +:+ c.
Proof.
  induction a as [| x a IH]; [done |].
  change (String x ((a +:+ b) +:+ c) = String x (a +:+ b +:+ c)).
  by rewrite IH.
Qed.

Lemma slice0_app (a b : string) : JS.slice0 (String.length a) (a +:+ b) = a.
Proof. induction a as [| c a IH]; simpl; [by destruct b | by rewrite IH]. Qed.

Lemma lastIndexOf_absent c (s : string) :
  JS.includes c s = false -> JS.lastIndexOf c s = None.
Proof.
  induction s as [| a s IH]; simpl; [done |].
  intros [Ha Hs]%orb_false_iff. by rewrite (IH Hs), Ha.
Qed.

Lemma lastIndexOf_app_sep c (a b : string) :
  JS.includes c b = false ->
  JS.lastIndexOf c (a +:+ String c b) = Some (String.length a).
Proof.
  intros Hb. induction a as [| d a IH]; simpl.
  - by rewrite (lastIndexOf_absent _ _ Hb), Ascii.eqb_refl.
  - by rewrite IH.
Qed.

Lemma tamper_length i c (s : string) :
  String.length (tamper i c s) = String.length s.
Proof.
  revert i. induction s as [| a s IH]; intros [| i]; simpl; try done.
  by rewrite IH.
Qed.

Lemma tamper_changes i c (s : string) :
  (i < String.length s)%nat -> String.get i s <> Some c -> tamper i c s <> s.
Proof.
  revert i. induction s as [| a s IH]; intros [| i]; simpl; try lia.
  - intros _ Hne Heq. injection Heq as ->. done.
  - intros Hi Hne Heq. injection Heq as Heq. apply (IH i); [lia | done | done].
Qed.

(** ** Signed cookie values *)

Section SignedValues.

Variable hmac_sha256_hex : string -> string -> string.
Variable cfg : Config.

(** A hex digest of SHA-256 has 64 characters, none of them a dot. *)
Hypothesis digest_length :
  forall key msg, String.length (hmac_sha256_hex key msg) = 64%nat.
Hypothesis digest_hex :
  forall key msg, JS.includes "." (hmac_sha256_hex key msg) = false.

Local Abbreviation sign := (signValue hmac_sha256_hex cfg).
Local Abbreviation verify := (verifySignedValue hmac_sha256_hex cfg).

(** Whatever [verifySignedValue] accepts is the signature of what it returns. *)
Lemma verifySignedValue_sound (signed value : string) :
  verify signed = Some value -> signed = sign value.
Proof.
  unfold verifySignedValue. destruct (JS.lastIndexOf "." signed) as [n|]; [| done].
  destruct (String.eqb_spec (sign (JS.slice0 n signed)) signed) as [He | Hne];
    simpl; [| done].
  intros [= <-]. done.
Qed.

Lemma signValue_lastDot (value : string) :
  JS.lastIndexOf "." (sign value) = Some (String.length value).
Proof.
  unfold signValue. change ("." +:+ ?h) with (String "."%char h).
  apply lastIndexOf_app_sep, digest_hex.
Qed.

Lemma verifySignedValue_signValue (value : string) :
  verify (sign value) = Some value.
Proof.
  unfold verifySignedValue. rewrite signValue_lastDot.
  assert (Hs : JS.slice0 (String.length value) (sign value) = value)
    by apply slice0_app.
  rewrite Hs. by rewrite String.eqb_refl.
Qed.

(** Two signed values with the same payload. *)
Lemma signed_same_length_inv (v w tag : string) :
  String.length tag = 64%nat ->
  v +:+ "." +:+ tag = sign w -> v = w /\ tag = hmac_sha256_hex (PANEL_SECRET cfg) w.
Proof.
  intros Htag Heq. unfold signValue in Heq.
  assert (Hlen : String.length v = String.length w).
  { apply (f_equal String.length) in Heq.
    rewrite !string_length_app, Htag, digest_length in Heq. simpl in Heq. lia. }
  destruct (string_app_inv _ _ _ _ Hlen Heq) as [-> Hrest].
  split; [done |]. by injection Hrest.
Qed.

(** A value followed by a tag of digest length that is not its digest is
    rejected. *)
Lemma verifySignedValue_wrong_tag (value tag : string) :
  String.length tag = 64%nat ->
  tag <> hmac_sha256_hex (PANEL_SECRET cfg) value ->
  verify (value +:+ "." +:+ tag) = None.
Proof.
  intros Htag Hne.
  destruct (verify (value +:+ "." +:+ tag)) as [w|] eqn:Hv; [| done].
  apply verifySignedValue_sound in Hv.
  destruct (signed_same_length_inv _ _ _ Htag Hv) as [-> Ht]. done.
Qed.

Lemma verifySignedValue_tampered (value : string) (i : nat) (c : ascii) :
  let tag := hmac_sha256_hex (PANEL_SECRET cfg) value in
  (i < String.length tag)%nat ->
  String.get i tag <> Some c ->
  verify (value +:+ "." +:+ tamper i c tag) = None.
Proof.
  intros tag Hi Hc. apply verifySignedValue_wrong_tag.
  - rewrite tamper_length. apply digest_length.
  - by apply tamper_changes.
Qed.

End SignedValues.

(** ** The session store and the CSRF guard *)

Lemma truthy_nonempty (s : string) : s <> "" -> JS.truthy s = true.
Proof. by destruct s. Qed.

Lemma truthy_true (s : string) : JS.truthy s = true -> s <> "".
Proof. by destruct s. Qed.

Section Sessions.

Variable hmac_sha256_hex : string -> string -> string.
Variable cfg : Config.

Hypothesis digest_length :
  forall key msg, String.length (hmac_sha256_hex key msg) = 64%nat.
Hypothesis digest_hex :
  forall key msg, JS.includes "." (hmac_sha256_hex key msg) = false.

Local Abbreviation sign := (signValue hmac_sha256_hex cfg).
Local Abbreviation verify := (verifySignedValue hmac_sha256_hex cfg).
Local Abbreviation validate := (validateSession hmac_sha256_hex cfg).

Lemma verified_cookie_truthy (cookie value : string) :
  verify cookie = Some value -> JS.truthy cookie = true.
Proof.
  unfold verifySignedValue. destruct cookie; [done | done].
Qed.

(** Past the allowlist, with the live session's own signed identifier, only
    the age of the session decides. *)
Lemma validateSession_own_cookie addr cookie now st s :
  checkIPAllowlist cfg addr = true ->
  activeSession st = Some s ->
  id s <> "" ->
  verify cookie = Some (id s) ->
  validate addr (Some cookie) now st =
  if now - createdAt s >? SESSION_MAX_AGE_MS
  then (with_session st None, rejected addr)
  else (with_session st (Some (touch now s)),
        {| valid := true; client_ip := addr |}).
Proof.
  intros Hip Hs Hid Hv. unfold validateSession.
  rewrite Hip, (verified_cookie_truthy _ _ Hv), Hv, (truthy_nonempty _ Hid), Hs.
  by rewrite String.eqb_refl.
Qed.

(** A session that is too old at [now] makes every validation fail, whatever
    is presented. *)
Lemma validateSession_expired addr cookie now st s :
  activeSession st = Some s ->
  SESSION_MAX_AGE_MS < now - createdAt s ->
  valid (snd (validate addr cookie now st)) = false.
Proof.
  intros Hs Hage. unfold validateSession.
  destruct (checkIPAllowlist cfg addr); simpl; [| done].
  destruct cookie as [ck|]; [| done].
  destruct (JS.truthy ck); simpl; [| done].
  destruct (verify ck) as [sid|]; [| done].
  destruct (JS.truthy sid); simpl; [| done].
  rewrite Hs. destruct (String.eqb (id s) sid); simpl; [| done].
  destruct (Z.gtb_spec (now - createdAt s) SESSION_MAX_AGE_MS); [done | lia].
Qed.

(** A cookie that does not verify to the live session's id is rejected and
    nothing changes. *)
Lemma validateSession_foreign addr ck now st :
  (forall s, activeSession st = Some s -> verify ck <> Some (id s)) ->
  validate addr (Some ck) now st = (st, rejected addr).
Proof.
  intros Hf. unfold validateSession.
  destruct (checkIPAllowlist cfg addr); simpl; [| done].
  destruct (JS.truthy ck); simpl; [| done].
  destruct (verify ck) as [sid|] eqn:Hv; [| done].
  destruct (JS.truthy sid); simpl; [| done].
  destruct (activeSession st) as [s|] eqn:Hs; [| done].
  destruct (String.eqb_spec (id s) sid) as [He | Hne]; simpl; [| done].
  exfalso. apply (Hf s); [done | by rewrite He].
Qed.

(** C4 (amended). For a caller that passes the allowlist, a live session with
    a non-empty id and a cookie that verifies to that id, [validateSession]
    at [now] succeeds exactly when [now - createdAt] is at most 24 hours: it
    succeeds one millisecond before [createdAt + 24h] and fails one
    millisecond after it. When it fails for age the session slot is cleared
    and the rate-limit table is untouched, and changing [lastActivity] does
    not change the verdict. *)
Theorem validateSession_lifetime (addr cookie : string) (now : Z)
  (st : Store) (s : Session) :
  checkIPAllowlist cfg addr = true ->
  activeSession st = Some s ->
  id s <> "" ->
  verify cookie = Some (id s) ->
  (valid (snd (validate addr (Some cookie) now st)) = true
   <-> now - createdAt s <= SESSION_MAX_AGE_MS)
  /\ (SESSION_MAX_AGE_MS < now - createdAt s ->
      validate addr (Some cookie) now st =
      ({| activeSession := None; rateLimitMap := rateLimitMap st |},
       {| valid := false; client_ip := addr |}))
  /\ valid (snd (validate addr (Some cookie)
                   (createdAt s + SESSION_MAX_AGE_MS - 1) st)) = true
  /\ valid (snd (validate addr (Some cookie)
                   (createdAt s + SESSION_MAX_AGE_MS + 1) st)) = false
  /\ (forall seen : Z,
        valid (snd (validate addr (Some cookie) now
                      (with_session st (Some (touch seen s))))) =
        valid (snd (validate addr (Some cookie) now st))).
Proof.
  intros Hip Hs Hid Hv.
  assert (Hown : forall t st0 s0, activeSession st0 = Some s0 ->
            id s0 = id s -> createdAt s0 = createdAt s ->
            valid (snd (validate addr (Some cookie) t st0)) =
            negb (t - createdAt s >? SESSION_MAX_AGE_MS)).
  { intros t st0 s0 Hs0 Hid0 Hc0.
    rewrite (validateSession_own_cookie addr cookie t st0 s0);
      [| done | done | by rewrite Hid0 | by rewrite Hid0].
    rewrite Hc0. by destruct (_ >? _). }
  repeat split.
  - rewrite (Hown now st s) by done.
    destruct (Z.gtb_spec (now - createdAt s) SESSION_MAX_AGE_MS); simpl; [done | lia].
  - intros Hle. rewrite (Hown now st s) by done.
    destruct (Z.gtb_spec (now - createdAt s) SESSION_MAX_AGE_MS); simpl; [lia | done].
  - intros Hage. rewrite (validateSession_own_cookie addr cookie now st s) by done.
    destruct (Z.gtb_spec (now - createdAt s) SESSION_MAX_AGE_MS); [done | lia].
  - rewrite (Hown _ st s) by done.
    destruct (Z.gtb_spec (createdAt s + SESSION_MAX_AGE_MS - 1 - createdAt s)
                SESSION_MAX_AGE_MS); simpl; [lia | done].
  - rewrite (Hown _ st s) by done.
    destruct (Z.gtb_spec (createdAt s + SESSION_MAX_AGE_MS + 1 - createdAt s)
                SESSION_MAX_AGE_MS); simpl; [done | lia].
  - intros seen. rewrite (Hown now st s) by done.
    by rewrite (Hown now (with_session st (Some (touch seen s))) (touch seen s)).
Qed.

(** C5. [validateSession] gives the same answer, [{valid: false, ip}], and
    leaves the store as it is, when no cookie is presented, when one
    character of the signature of a signed cookie was replaced by another
    one, and when the cookie is the correctly signed form of an identifier
    that is not the live session's id. *)
Theorem validateSession_failures_alike (addr : string) (now : Z) (st : Store) :
  validate addr None now st = (st, {| valid := false; client_ip := addr |})
  /\ (forall (value : string) (i : nat) (c : ascii),
        let tag := hmac_sha256_hex (PANEL_SECRET cfg) value in
        (i < String.length tag)%nat ->
        String.get i tag <> Some c ->
        validate addr (Some (value +:+ "." +:+ tamper i c tag)) now st =
        validate addr None now st)
  /\ (forall other : string,
        (forall s, activeSession st = Some s -> id s <> other) ->
        validate addr (Some (sign other)) now st = validate addr None now st).
Proof.
  assert (Hnone : validate addr None now st = (st, rejected addr)).
  { unfold validateSession. by destruct (checkIPAllowlist cfg addr). }
  split; [done | split].
  - intros value i c tag Hi Hc. rewrite Hnone.
    apply validateSession_foreign. intros s _.
    unfold tag in *.
    by rewrite (verifySignedValue_tampered _ _ digest_length value i c Hi Hc).
  - intros other Hother. rewrite Hnone.
    apply validateSession_foreign. intros s Hs.
    rewrite (verifySignedValue_signValue _ _ digest_hex).
    intros [= He]. by apply (Hother s).
Qed.

(** C7. [validateCSRF] is false without a live session and false for an
    absent or empty header; with a live session it is true exactly for a
    non-empty header that equals the session's [csrfToken], hence false for
    every other string. *)
Theorem validateCSRF_exact (header : option string) (st : Store) :
  (activeSession st = None -> validateCSRF header st = false)
  /\ (header = None \/ header = Some "" -> validateCSRF header st = false)
  /\ (forall s, activeSession st = Some s ->
        (validateCSRF header st = true
         <-> exists tok, header = Some tok /\ tok <> "" /\ tok = csrfToken s))
  /\ (forall s tok, activeSession st = Some s -> tok <> csrfToken s ->
        validateCSRF (Some tok) st = false).
Proof.
  unfold validateCSRF. split; [| split; [| split]].
  - by intros ->.
  - intros [-> | ->]; by destruct (activeSession st).
  - intros s Hs. rewrite Hs. split.
    + destruct header as [tok|]; [| done].
      destruct (JS.truthy tok) eqn:Ht; simpl; [| done].
      intros He%String.eqb_eq. exists tok.
      by split; [| split; [apply truthy_true |]].
    + intros (tok & -> & Hne & ->).
      rewrite (truthy_nonempty _ Hne). simpl. apply String.eqb_refl.
  - intros s tok Hs Hne. rewrite Hs.
    destruct (JS.truthy tok); simpl; [| done]. by apply String.eqb_neq.
Qed.

(** C10. [validateCSRF] never looks at the clock: with a live session whose
    token is non-empty it accepts that token even at an instant [now] at
    which the session is older than 24 hours, and [requireCSRF] passes,
    while at that instant [requireAuth] throws 401 whatever is presented. *)
Theorem validateCSRF_ignores_age (st : Store) (s : Session) (now : Z) :
  activeSession st = Some s ->
  csrfToken s <> "" ->
  SESSION_MAX_AGE_MS < now - createdAt s ->
  validateCSRF (Some (csrfToken s)) st = true
  /\ requireCSRF (Some (csrfToken s)) st = inr tt
  /\ (forall addr cookie,
        snd (requireAuth hmac_sha256_hex cfg addr cookie now st) =
        inl {| message := "Unauthorized"; status := 401 |}).
Proof.
  intros Hs Htok Hage.
  assert (Hc : validateCSRF (Some (csrfToken s)) st = true).
  { unfold validateCSRF. rewrite Hs, (truthy_nonempty _ Htok). simpl.
    apply String.eqb_refl. }
  split; [done | split].
  - unfold requireCSRF. by rewrite Hc.
  - intros addr cookie. unfold requireAuth.
    by rewrite (validateSession_expired addr cookie now st s).
Qed.

End Sessions.

(** ** Login *)

Lemma table_bounded_empty : table_bounded ∅.
Proof. intros addr e H. by rewrite lookup_empty in H. Qed.

Lemma table_bounded_delete addr (m : gmap string RateEntry) :
  table_bounded m -> table_bounded (delete addr m).
Proof.
  intros Hm a e H. apply lookup_delete_Some in H as [_ H]. by apply (Hm a).
Qed.

Lemma table_bounded_insert addr e (m : gmap string RateEntry) :
  entry_bounded e -> table_bounded m -> table_bounded (<[addr := e]> m).
Proof.
  intros He Hm a e' H. apply lookup_insert_Some in H as [[_ <-] | [_ H]];
    [done | by apply (Hm a)].
Qed.

Lemma table_bounded_check now addr (m : gmap string RateEntry) :
  table_bounded m -> table_bounded (snd (checkRateLimit now addr m)).
Proof.
  intros Hm. destruct (checkRateLimit_table now addr m) as [-> | ->];
    [done | by apply table_bounded_delete].
Qed.

Lemma table_bounded_sweep now (m : gmap string RateEntry) :
  table_bounded m -> table_bounded (sweep now m).
Proof.
  intros Hm a e H. apply map_lookup_filter_Some in H as [H _]. by apply (Hm a).
Qed.

(** A failure recorded for a caller whose entry, if any, has fewer than five
    attempts keeps the bound. *)
Lemma table_bounded_record now addr (m : gmap string RateEntry) :
  table_bounded m ->
  match m !! addr with
  | None => True
  | Some e => attempts e < LOGIN_MAX_ATTEMPTS
  end ->
  table_bounded (recordFailedAttempt now addr m).
Proof.
  intros Hm Hlt. unfold recordFailedAttempt.
  destruct (m !! addr) as [e|] eqn:He.
  - destruct (now - firstAttempt e >? LOGIN_WINDOW_MS).
    + apply table_bounded_insert; [| done].
      unfold entry_bounded, fresh_entry, LOGIN_MAX_ATTEMPTS; simpl. lia.
    + apply table_bounded_insert; [| done].
      destruct (Hm _ _ He) as [_ Hl].
      unfold entry_bounded, bump_entry, LOGIN_MAX_ATTEMPTS, LOCKOUT_ATTEMPTS in *;
        simpl.
      destruct (Z.geb_spec (attempts e + 1) 10); [lia |]. split; [lia | done].
  - apply table_bounded_insert; [| done].
    unfold entry_bounded, fresh_entry, LOGIN_MAX_ATTEMPTS; simpl. lia.
Qed.

Lemma sweep_lookup now addr (m : gmap string RateEntry) :
  sweep now m !! addr =
  match m !! addr with
  | Some e => if stale now e then None else Some e
  | None => None
  end.
Proof.
  unfold sweep. rewrite map_lookup_filter.
  destruct (m !! addr) as [e|]; simpl; [| done].
  destruct (stale now e); [by rewrite option_guard_False | by rewrite option_guard_True].
Qed.

Section Login.

Variable hmac_sha256_hex : string -> string -> string.
Variable bcrypt_compare : string -> string -> bool.
Variable cfg : Config.

Local Abbreviation sign := (signValue hmac_sha256_hex cfg).
Local Abbreviation begin := (login_begin cfg).
Local Abbreviation resume := (login_resume hmac_sha256_hex cfg).
Local Abbreviation login' := (login hmac_sha256_hex bcrypt_compare cfg).
Local Abbreviation validate := (validateSession hmac_sha256_hex cfg).
Local Abbreviation step := (op_step hmac_sha256_hex bcrypt_compare cfg).
Local Abbreviation reach := (reachable hmac_sha256_hex bcrypt_compare cfg).
Local Abbreviation astep := (async_step hmac_sha256_hex bcrypt_compare cfg).
Local Abbreviation areach := (async_reachable hmac_sha256_hex bcrypt_compare cfg).

(** The four ways [login_begin] can end, in the order of the checks. *)
Lemma login_begin_cases (c : LoginCall) (st : Store) :
  let rc := checkRateLimit (tCheck c) (caller c) (rateLimitMap st) in
  begin c st =
  if negb (checkIPAllowlist cfg (caller c)) then
    (st, Finished denied [Audit "blocked_ip" (caller c) (Some "login")])
  else if negb (allowed (fst rc)) then
    (st, Finished (throttled (fst rc))
                  [Audit "rate_limited" (caller c) (Some "login")])
  else if negb (JS.truthy (PANEL_PASSWORD_HASH cfg)) then
    (with_rate st (snd rc), Finished unconfigured [])
  else (with_rate st (snd rc), AwaitCompare).
Proof.
  intros rc. unfold login_begin. fold rc.
  destruct (checkIPAllowlist cfg (caller c)); simpl; [| done].
  destruct (allowed (fst rc)) eqn:Ha; simpl; [done |].
  unfold rc in *. rewrite (checkRateLimit_refused_table _ _ _ Ha).
  by destruct st.
Qed.

(** Whatever the outcome, [login_begin] creates no entry and counts no
    attempt: the table is kept, or the caller's expired entry is dropped. *)
Lemma login_begin_table (c : LoginCall) (st : Store) :
  rateLimitMap (fst (begin c st)) = rateLimitMap st
  \/ rateLimitMap (fst (begin c st)) = delete (caller c) (rateLimitMap st).
Proof.
  rewrite login_begin_cases.
  destruct (negb (checkIPAllowlist cfg (caller c))); [by left |].
  destruct (negb (allowed _)); [by left |].
  destruct (negb (JS.truthy _)); simpl; apply checkRateLimit_table.
Qed.

Lemma with_rate_same (st : Store) : with_rate st (rateLimitMap st) = st.
Proof. by destruct st. Qed.

Lemma login_begin_bounded (c : LoginCall) (st : Store) :
  table_bounded (rateLimitMap st) ->
  table_bounded (rateLimitMap (fst (begin c st))).
Proof.
  intros Hb. rewrite login_begin_cases.
  destruct (negb (checkIPAllowlist cfg (caller c))); [done |].
  destruct (negb (allowed _)); [done |].
  destruct (negb (JS.truthy _)); simpl; by apply table_bounded_check.
Qed.

(** When [login_begin] suspends, the caller has no entry or one with fewer
    than five attempts. *)
Lemma login_begin_suspended (c : LoginCall) (st st' : Store) :
  begin c st = (st', AwaitCompare) ->
  checkIPAllowlist cfg (caller c) = true
  /\ allowed (fst (checkRateLimit (tCheck c) (caller c) (rateLimitMap st))) = true
  /\ PANEL_PASSWORD_HASH cfg <> ""
  /\ st' = with_rate st (snd (checkRateLimit (tCheck c) (caller c) (rateLimitMap st))).
Proof.
  rewrite login_begin_cases.
  destruct (checkIPAllowlist cfg (caller c)); simpl; [| done].
  destruct (allowed _) eqn:Ha; simpl; [| done].
  destruct (JS.truthy _) eqn:Ht; simpl; [| done].
  intros [= <-]. by split; [| split; [| split; [apply truthy_true |]]].
Qed.

Lemma login_resume_bounded (c : LoginCall) (ok : bool) (st : Store) :
  table_bounded (rateLimitMap st) ->
  match rateLimitMap st !! caller c with
  | None => True
  | Some e => attempts e < LOGIN_MAX_ATTEMPTS
  end ->
  table_bounded (rateLimitMap (fst (resume c ok st))).
Proof.
  intros Hb Hlt. unfold login_resume. destruct ok; simpl.
  - by apply table_bounded_delete.
  - by apply table_bounded_check, table_bounded_record.
Qed.

Lemma login_bounded (c : LoginCall) (st : Store) :
  table_bounded (rateLimitMap st) ->
  table_bounded (rateLimitMap (fst (login' c st))).
Proof.
  intros Hb. unfold login.
  destruct (begin c st) as [st1 [r out |]] eqn:Hbegin.
  - simpl. change st1 with (fst (st1, Finished r out)). rewrite <- Hbegin.
    by apply login_begin_bounded.
  - pose proof (login_begin_bounded c st Hb) as Hb1. rewrite Hbegin in Hb1.
    apply login_begin_suspended in Hbegin as (_ & Ha & _ & ->).
    apply login_resume_bounded; [done |]. simpl.
    pose proof (checkRateLimit_allowed _ _ _ Ha) as Hentry.
    destruct (snd (checkRateLimit _ _ _) !! caller c); [by destruct Hentry | done].
Qed.

Lemma validateSession_table addr cookie now (st : Store) :
  rateLimitMap (fst (validate addr cookie now st)) = rateLimitMap st.
Proof.
  unfold validateSession.
  repeat match goal with
         | |- context [if ?b then _ else _] => destruct b; simpl; try done
         | |- context [match ?o with Some _ => _ | None => _ end] =>
             destruct o; simpl; try done
         end.
Qed.

Lemma op_step_bounded (st st' : Store) :
  step st st' ->
  table_bounded (rateLimitMap st) -> table_bounded (rateLimitMap st').
Proof.
  intros Hstep Hb. destruct Hstep as [c st | addr st | addr cookie now st | now st].
  - by apply login_bounded.
  - done.
  - by rewrite validateSession_table.
  - by apply table_bounded_sweep.
Qed.

(** Starting from the empty table, as long as the calls of [login],
    [logout] and [validateSession] (and the runs of the cleanup timer) do
    not overlap at all, every entry of the rate-limit table has at most 5
    attempts and [lockedUntil = 0]. *)
Theorem sequential_logins_never_lock (st : Store) :
  reach st ->
  forall addr e, rateLimitMap st !! addr = Some e ->
    attempts e <= 5 /\ lockedUntil e = 0.
Proof.
  intros Hreach. change (table_bounded (rateLimitMap st)).
  induction Hreach as [| st st' _ IH Hstep].
  - apply table_bounded_empty.
  - by apply (op_step_bounded st st').
Qed.

(** Calls that do not overlap are a special case of the server's runs. *)
Lemma reachable_async (st : Store) : reach st -> areach (st, []).
Proof.
  induction 1 as [| st st' _ IH Hstep]; [constructor |].
  destruct Hstep as [c st | addr st | addr cookie now st | now st].
  - unfold login. destruct (begin c st) as [st1 [r out |]] eqn:Hbegin; simpl.
    + eapply areach_step; [exact IH |]. by eapply as_login_return.
    + eapply areach_step.
      * eapply areach_step; [exact IH |]. by eapply as_login_suspend.
      * apply (as_login_resume _ _ _ c st1 [] []).
  - eapply areach_step; [exact IH |]. apply as_logout.
  - eapply areach_step; [exact IH |]. apply as_validateSession.
  - eapply areach_step; [exact IH |]. apply as_sweep.
Qed.

(** *** Logins of one address that do not overlap *)

Lemma pending_ok_shrink (m m' : gmap string RateEntry) (pend : list LoginCall) :
  (forall a, m' !! a = None \/ m' !! a = m !! a) ->
  Forall (pending_ok m) pend -> Forall (pending_ok m') pend.
Proof.
  intros Hsub Hok. eapply Forall_impl; [exact Hok |].
  intros d. unfold pending_ok.
  by destruct (Hsub (caller d)) as [-> | ->].
Qed.

Lemma pending_ok_elsewhere (m m' : gmap string RateEntry) (addr : string)
  (pend : list LoginCall) :
  (forall a, a <> addr -> m' !! a = m !! a) ->
  Forall (fun d => caller d <> addr) pend ->
  Forall (pending_ok m) pend -> Forall (pending_ok m') pend.
Proof.
  intros Hsame Hne Hok. induction pend as [| d pend IH]; [constructor |].
  apply Forall_cons in Hne as [Hd Hne]. apply Forall_cons in Hok as [Hokd Hok].
  constructor; [| by apply IH].
  unfold pending_ok in *. by rewrite (Hsame _ Hd).
Qed.

Lemma table_kept_or_deleted addr (m m' : gmap string RateEntry) :
  m' = m \/ m' = delete addr m ->
  forall a, m' !! a = None \/ m' !! a = m !! a.
Proof.
  intros [-> | ->] a; [by right |].
  destruct (decide (addr = a)) as [-> | Hne];
    [left; apply lookup_delete_eq | right; by apply lookup_delete_ne].
Qed.

Lemma login_resume_other (c : LoginCall) (ok : bool) (st : Store) other :
  other <> caller c ->
  rateLimitMap (fst (resume c ok st)) !! other = rateLimitMap st !! other.
Proof.
  intros Hne. unfold login_resume. destruct ok; simpl.
  - unfold clearRateLimit. by rewrite lookup_delete_ne.
  - destruct (checkRateLimit_table (tRecheck c) (caller c)
                (recordFailedAttempt (tRecord c) (caller c) (rateLimitMap st)))
      as [-> | ->]; [| rewrite lookup_delete_ne by done];
      by apply recordFailedAttempt_other.
Qed.

Lemma apart_removed (c : LoginCall) (pend1 pend2 : list LoginCall) :
  NoDup (map caller (pend1 ++ c :: pend2)) ->
  Forall (fun d => caller d <> caller c) (pend1 ++ pend2).
Proof.
  rewrite map_app. simpl. intros (H1 & Hdisj & H2)%NoDup_app.
  apply NoDup_cons in H2 as [Hc _].
  apply Forall_app. split; apply Forall_forall; intros d Hd Heq.
  - apply (Hdisj (caller d)).
    + apply list_elem_of_In, in_map, list_elem_of_In, Hd.
    + rewrite Heq. by left.
  - apply Hc. rewrite <- Heq.
    apply list_elem_of_In, in_map, list_elem_of_In, Hd.
Qed.

Local Abbreviation sreach :=
  (apart_reachable hmac_sha256_hex bcrypt_compare cfg).

(** The invariant of the runs in which logins of one address do not
    overlap. *)
Lemma apart_reachable_invariant (w : World) :
  sreach w ->
  table_bounded (rateLimitMap (fst w))
  /\ apart w
  /\ Forall (pending_ok (rateLimitMap (fst w))) (snd w).
Proof.
  induction 1 as [| w w' _ (Hb & Hap & Hok) Hstep Hap'].
  - split; [apply table_bounded_empty |]. split; [constructor | constructor].
  - split; [| split; [exact Hap' |]].
    + destruct Hstep as [c st pend st' r out Hbeg | c st pend st' Hbeg
                        | c st pend1 pend2 | addr st pend
                        | addr cookie now st pend | now st pend]; simpl in *.
      * change st' with (fst (st', Finished r out)). rewrite <- Hbeg.
        by apply login_begin_bounded.
      * change st' with (fst (st', AwaitCompare)). rewrite <- Hbeg.
        by apply login_begin_bounded.
      * apply login_resume_bounded; [done |].
        apply Forall_app in Hok as [_ Hok].
        by apply Forall_cons in Hok as [Hc _].
      * done.
      * by rewrite validateSession_table.
      * by apply table_bounded_sweep.
    + destruct Hstep as [c st pend st' r out Hbeg | c st pend st' Hbeg
                        | c st pend1 pend2 | addr st pend
                        | addr cookie now st pend | now st pend]; simpl in *.
      * apply (pending_ok_shrink (rateLimitMap st)); [| done].
        apply (table_kept_or_deleted (caller c)).
        change st' with (fst (st', Finished r out)). rewrite <- Hbeg.
        apply login_begin_table.
      * pose proof (login_begin_table c st) as Htab. rewrite Hbeg in Htab.
        simpl in Htab. constructor.
        -- apply login_begin_suspended in Hbeg as (_ & Ha & _ & ->).
           unfold pending_ok. simpl.
           pose proof (checkRateLimit_allowed _ _ _ Ha) as Hentry.
           destruct (snd (checkRateLimit _ _ _) !! caller c);
             [by destruct Hentry | done].
        -- apply (pending_ok_shrink (rateLimitMap st)); [| done].
           by apply (table_kept_or_deleted (caller c)).
      * apply (pending_ok_elsewhere (rateLimitMap st) _ (caller c)).
        -- intros a Ha. by apply login_resume_other.
        -- by apply apart_removed.
        -- apply Forall_app in Hok as [Hok1 Hok2].
           apply Forall_cons in Hok2 as [_ Hok2].
           apply Forall_app. by split.
      * done.
      * by rewrite validateSession_table.
      * apply (pending_ok_shrink (rateLimitMap st)); [| done].
        intros a. rewrite sweep_lookup.
        destruct (rateLimitMap st !! a) as [e|]; [| by left].
        destruct (stale now e); [by left | by right].
Qed.

(** C1 (amended). Starting from the empty table, in every state the server
    reaches through [login], [logout], [validateSession] and the cleanup
    timer, as long as no two [login] calls of the same address are suspended
    at their password comparison at the same time, every entry of the
    rate-limit table has at most 5 attempts and [lockedUntil = 0]: such a
    [login] records a failure only for an address whose count its own check
    found below 5, so the branch of [recordFailedAttempt] that sets a lock is
    never taken. Logins of different addresses may overlap. *)
Theorem separate_logins_never_lock (w : World) :
  sreach w ->
  forall addr e, rateLimitMap (fst w) !! addr = Some e ->
    attempts e <= 5 /\ lockedUntil e = 0.
Proof.
  intros Hr. by destruct (apart_reachable_invariant w Hr) as (Hb & _).
Qed.

(** Calls that do not overlap at all are among these runs. *)
Lemma reachable_apart (st : Store) : reach st -> sreach (st, []).
Proof.
  induction 1 as [| st st' _ IH Hstep]; [constructor |].
  destruct Hstep as [c st | addr st | addr cookie now st | now st].
  - unfold login. destruct (begin c st) as [st1 [r out |]] eqn:Hbegin; simpl.
    + eapply apart_next; [exact IH | by eapply as_login_return | constructor].
    + eapply apart_next.
      * eapply apart_next;
          [exact IH | by eapply as_login_suspend | apply NoDup_singleton].
      * apply (as_login_resume _ _ _ c st1 [] []).
      * constructor.
  - eapply apart_next; [exact IH | apply as_logout | constructor].
  - eapply apart_next; [exact IH | apply as_validateSession | constructor].
  - eapply apart_next; [exact IH | apply as_sweep | constructor].
Qed.

(** *** Overlapping calls *)

Lemma async_suspend_many (c : LoginCall) (st : Store) (n : nat) :
  begin c st = (st, AwaitCompare) ->
  areach (st, []) -> areach (st, replicate n c).
Proof.
  intros Hb H0. induction n as [| n IH]; [done |].
  simpl. eapply areach_step; [exact IH |]. by apply as_login_suspend.
Qed.

Lemma async_resume_failed (c : LoginCall) (n : nat) :
  bcrypt_compare (password c) (PANEL_PASSWORD_HASH cfg) = false ->
  forall k st,
    areach (st, replicate (n + k) c) ->
    areach (resume_failed hmac_sha256_hex cfg c n st, replicate k c).
Proof.
  intros Hbad. induction n as [| n IH]; intros k st Hr; [done |].
  simpl. specialize (IH (S k) st).
  rewrite Nat.add_succ_r in IH. specialize (IH Hr). simpl in IH.
  eapply areach_step; [exact IH |].
  pose proof (as_login_resume hmac_sha256_hex bcrypt_compare cfg c
                (resume_failed hmac_sha256_hex cfg c n st) [] (replicate k c))
    as Hstep.
  by rewrite Hbad in Hstep.
Qed.

(** *** The order of the checks *)

(** Without a configured hash no failure is ever recorded, so the table stays
    empty and no call is ever suspended. *)
Lemma unconfigured_table_empty (w : World) :
  PANEL_PASSWORD_HASH cfg = "" ->
  areach w -> rateLimitMap (fst w) = ∅ /\ snd w = [].
Proof.
  intros Hcfg Hr. induction Hr as [| w w' _ [IHm IHp] Hstep]; [done |].
  destruct Hstep as [c st pend st' r out Hb | c st pend st' Hb
                    | c st pend1 pend2 | addr st pend
                    | addr cookie now st pend | now st pend]; simpl in *.
  - split; [| done]. rewrite login_begin_cases in Hb.
    assert (Hck : checkRateLimit (tCheck c) (caller c) (rateLimitMap st)
                  = (full_budget, rateLimitMap st))
      by (apply checkRateLimit_none; by rewrite IHm).
    rewrite Hck in Hb. simpl in Hb. rewrite with_rate_same in Hb.
    destruct (negb (checkIPAllowlist cfg (caller c)));
      [by injection Hb as <- |].
    destruct (negb (JS.truthy (PANEL_PASSWORD_HASH cfg)));
      [by injection Hb as <- | done].
  - apply login_begin_suspended in Hb as (_ & _ & Hne & _). done.
  - by destruct pend1.
  - done.
  - by rewrite validateSession_table.
  - split; [| done]. rewrite IHm. apply map_filter_empty.
Qed.

(** C8. [login] checks the allowlist, then the rate limit, then the
    configuration, then the password. A rejected address gets
    "Access denied" and the store is left as it is, so no rate-limit entry
    appears. A refused rate check gets "Too many attempts" and the store is
    left as it is. With no password hash configured, a caller that passes the
    allowlist gets the configuration error, which differs from the other
    three, the store is left as it is, and the call returns before its
    password comparison. The comparison is awaited exactly when the three
    earlier checks have passed, and then it decides: a password that does
    not compare equal gets "Invalid password" with the remaining budget, the
    failure is recorded and the session slot is left as it is; one that
    compares equal gets the success result, the new session and both
    cookies, and the caller's entry is removed. *)
Theorem login_check_order (c : LoginCall) (st : Store) :
  let rc := fst (checkRateLimit (tCheck c) (caller c) (rateLimitMap st)) in
  (checkIPAllowlist cfg (caller c) = false ->
   begin c st = (st, Finished denied
                       [Audit "blocked_ip" (caller c) (Some "login")])
   /\ login' c st = (st, (denied, [Audit "blocked_ip" (caller c) (Some "login")]))
   /\ error denied = Some "Access denied")
  /\ (checkIPAllowlist cfg (caller c) = true ->
      allowed rc = false ->
      begin c st = (st, Finished (throttled rc)
                          [Audit "rate_limited" (caller c) (Some "login")])
      /\ login' c st =
         (st, (throttled rc, [Audit "rate_limited" (caller c) (Some "login")])))
  /\ (forall pend,
        areach (st, pend) ->
        checkIPAllowlist cfg (caller c) = true ->
        PANEL_PASSWORD_HASH cfg = "" ->
        begin c st = (st, Finished unconfigured [])
        /\ login' c st = (st, (unconfigured, []))
        /\ error unconfigured <> error denied
        /\ error unconfigured <> error (throttled rc)
        /\ forall rc', error unconfigured <> error (invalid_password rc'))
  /\ (forall st', begin c st = (st', AwaitCompare) ->
      checkIPAllowlist cfg (caller c) = true
      /\ allowed rc = true
      /\ PANEL_PASSWORD_HASH cfg <> "")
  /\ (checkIPAllowlist cfg (caller c) = true ->
      allowed rc = true ->
      PANEL_PASSWORD_HASH cfg <> "" ->
      let m1 := snd (checkRateLimit (tCheck c) (caller c) (rateLimitMap st)) in
      let updated :=
        checkRateLimit (tRecheck c) (caller c)
          (recordFailedAttempt (tRecord c) (caller c) m1) in
      begin c st = (with_rate st m1, AwaitCompare)
      /\ (bcrypt_compare (password c) (PANEL_PASSWORD_HASH cfg) = false ->
          login' c st =
          ({| activeSession := activeSession st;
              rateLimitMap := snd updated |},
           ({| success := false; error := Some "Invalid password";
               login_remaining := Some (remaining (fst updated));
               login_retryAfterMs := None |},
            [Audit "login_failed" (caller c) None])))
      /\ (bcrypt_compare (password c) (PANEL_PASSWORD_HASH cfg) = true ->
          login' c st =
          ({| activeSession := Some (issued c);
              rateLimitMap := delete (caller c) m1 |},
           ({| success := true; error := None;
               login_remaining := None; login_retryAfterMs := None |},
            [SetCookie "lsp_session" (sign (sessionId c)) true 86400;
             SetCookie "lsp_csrf" (freshCsrf c) false 86400;
             Audit "login_success" (caller c) None])))).
Proof.
  intros rc. split; [| split; [| split; [| split]]].
  - intros Hip.
    assert (Hb : begin c st = (st, Finished denied
                   [Audit "blocked_ip" (caller c) (Some "login")]))
      by (rewrite login_begin_cases; by rewrite Hip).
    split; [done |]. split; [| done]. unfold login. by rewrite Hb.
  - intros Hip Hrc.
    assert (Hb : begin c st = (st, Finished (throttled rc)
                   [Audit "rate_limited" (caller c) (Some "login")])).
    { rewrite login_begin_cases, Hip. simpl. fold rc. by rewrite Hrc. }
    split; [done |]. unfold login. by rewrite Hb.
  - intros pend Hr Hip Hcfg.
    destruct (unconfigured_table_empty _ Hcfg Hr) as [Hm _]. simpl in Hm.
    assert (Hb : begin c st = (st, Finished unconfigured [])).
    { rewrite login_begin_cases, Hip, Hcfg. simpl.
      rewrite (checkRateLimit_none _ _ (rateLimitMap st)) by (by rewrite Hm).
      simpl. by rewrite with_rate_same. }
    split; [done |]. split; [unfold login; by rewrite Hb |].
    by repeat split.
  - intros st' Hb.
    by apply login_begin_suspended in Hb as (? & ? & ? & ?).
  - intros Hip Hrc Hcfg m1 updated.
    assert (Hb : begin c st = (with_rate st m1, AwaitCompare)).
    { rewrite login_begin_cases, Hip. cbn [negb]. fold rc. rewrite Hrc.
      cbn [negb]. by rewrite (truthy_nonempty _ Hcfg). }
    split; [exact Hb |].
    split; intros Hcmp; unfold login; rewrite Hb, Hcmp; reflexivity.
Qed.

(** *** Issuing a session *)

Lemma login_success_session (c : LoginCall) (st : Store) :
  success (fst (snd (login' c st))) = true ->
  activeSession (fst (login' c st)) = Some (issued c)
  /\ snd (snd (login' c st)) =
     [SetCookie SESSION_COOKIE (sign (sessionId c)) true
                (SESSION_MAX_AGE_MS / 1000);
      SetCookie CSRF_COOKIE (freshCsrf c) false (SESSION_MAX_AGE_MS / 1000);
      Audit "login_success" (caller c) None].
Proof.
  unfold login. destruct (begin c st) as [st1 [r out |]] eqn:Hb.
  - simpl. rewrite login_begin_cases in Hb.
    repeat match type of Hb with
           | (if ?b then _ else _) = _ => destruct b
           end; by simplify_eq.
  - unfold login_resume. by destruct (bcrypt_compare _ _).
Qed.

Hypothesis digest_hex :
  forall key msg, JS.includes "." (hmac_sha256_hex key msg) = false.

(** C6. A successful [login] stores exactly the session it has just built,
    whatever session was live before; from then on the correctly signed
    identifier of the earlier session, being a different id, is rejected by
    [validateSession] from every address and at every instant, and the store
    is left as it is. The slot holds one session at most. *)
Theorem login_replaces_session (c : LoginCall) (st : Store) (s1 : Session) :
  activeSession st = Some s1 ->
  success (fst (snd (login' c st))) = true ->
  sessionId c <> id s1 ->
  let st' := fst (login' c st) in
  activeSession st' = Some (issued c)
  /\ (forall addr now,
        validate addr (Some (sign (id s1))) now st' =
        (st', {| valid := false; client_ip := addr |})).
Proof.
  intros Hs1 Hok Hfresh st'.
  destruct (login_success_session c st Hok) as [Hnew _].
  split; [done |].
  intros addr now. apply validateSession_foreign. intros s Hs.
  rewrite (verifySignedValue_signValue _ _ digest_hex).
  unfold st' in Hs. rewrite Hnew in Hs. injection Hs as <-. simpl.
  intros [= He]. by apply Hfresh.
Qed.

End Login.

(** ** The IP allowlist *)

Lemma includes_app c (a b : string) :
  JS.includes c (a +:+ b) = JS.includes c a || JS.includes c b.
Proof.
  induction a as [| d a IH]; simpl; [done |]. by rewrite IH, orb_assoc.
Qed.

Lemma split_absent c (s : string) :
  JS.includes c s = false -> JS.split c s = [s].
Proof.
  induction s as [| a s IH]; simpl; [done |].
  intros [Ha Hs]%orb_false_iff. by rewrite Ha, (IH Hs).
Qed.

Lemma split_app_sep c (a b : string) :
  JS.includes c a = false ->
  JS.split c (a +:+ String c b) = a :: JS.split c b.
Proof.
  induction a as [| d a IH]; simpl.
  - intros _. by rewrite Ascii.eqb_refl.
  - intros [Hd Ha]%orb_false_iff. by rewrite Hd, (IH Ha).
Qed.

Lemma startsWith_prefix (s p : string) :
  JS.startsWith s p = true <-> exists rest, s = p +:+ rest.
Proof.
  revert s. induction p as [| b p IH]; intros [| a s]; simpl.
  - split; [intros _; by exists EmptyString | done].
  - split; [intros _; by exists (String a s) | done].
  - split; [done | by intros [rest Hr]].
  - rewrite andb_true_iff, IH. split.
    + intros [Hab%Ascii.eqb_eq [rest ->]]. subst. by exists rest.
    + intros [rest [= -> ->]]. split; [apply Ascii.eqb_refl | by exists rest].
Qed.

Lemma cidr_prefix_base (base len : string) :
  JS.includes "/" base = false ->
  cidr_prefix (base +:+ "/" +:+ len) = JS.join "." (take 3 (JS.split "." base)).
Proof.
  intros Hb. unfold cidr_prefix.
  change ("/" +:+ len) with (String "/"%char len).
  by rewrite split_app_sep.
Qed.

Lemma split_four_octets (o1 o2 o3 o4 : string) :
  JS.includes "." o1 = false -> JS.includes "." o2 = false ->
  JS.includes "." o3 = false -> JS.includes "." o4 = false ->
  JS.split "." (o1 +:+ "." +:+ o2 +:+ "." +:+ o3 +:+ "." +:+ o4) =
  [o1; o2; o3; o4].
Proof.
  intros H1 H2 H3 H4. rewrite !char_app.
  rewrite !split_app_sep by done. by rewrite split_absent.
Qed.

(** C9. With an empty allowlist every address is allowed. Otherwise an
    address is allowed exactly when some configured entry matches it: an
    entry without a slash matches the address equal to it; an entry with a
    slash matches every address that starts, as text, with the first three
    dot-separated components of what stands before the slash. For an entry
    [a.b.c.d/len] that text is [a.b.c], whatever [len] is. *)
Theorem checkIPAllowlist_spec (cfg : Config) (addr : string) :
  (ALLOWED_IPS cfg = [] -> checkIPAllowlist cfg addr = true)
  /\ (ALLOWED_IPS cfg <> [] ->
      (checkIPAllowlist cfg addr = true <->
       exists entry, In entry (ALLOWED_IPS cfg) /\
         ((JS.includes "/" entry = false /\ addr = entry)
          \/ (JS.includes "/" entry = true /\
              exists rest, addr = cidr_prefix entry +:+ rest))))
  /\ (forall a b c d len : string,
        JS.includes "." a = false -> JS.includes "." b = false ->
        JS.includes "." c = false -> JS.includes "." d = false ->
        JS.includes "/" (a +:+ "." +:+ b +:+ "." +:+ c +:+ "." +:+ d) = false ->
        cidr_prefix (a +:+ "." +:+ b +:+ "." +:+ c +:+ "." +:+ d +:+ "/" +:+ len)
        = a +:+ "." +:+ b +:+ "." +:+ c).
Proof.
  split; [| split].
  - intros He. unfold checkIPAllowlist. by rewrite He.
  - intros Hne. unfold checkIPAllowlist.
    destruct (ALLOWED_IPS cfg) as [| e0 entries] eqn:Hl; [done |].
    rewrite existsb_exists. unfold allowlist_match.
    split.
    + intros (entry & Hin & Hm). exists entry. split; [done |].
      destruct (JS.includes "/" entry).
      * right. split; [done |]. by apply startsWith_prefix.
      * left. split; [done |]. by apply String.eqb_eq.
    + intros (entry & Hin & [[Hs ->] | [Hs Hp]]); exists entry; rewrite Hs.
      * split; [done | apply String.eqb_refl].
      * split; [done | by apply startsWith_prefix].
  - intros a b c d len Ha Hb Hc Hd Hslash.
    pose proof (cidr_prefix_base
                  (a +:+ "." +:+ b +:+ "." +:+ c +:+ "." +:+ d) len Hslash) as Hp.
    rewrite split_four_octets in Hp by done. simpl in Hp.
    by rewrite !string_app_assoc in Hp.
Qed.

(** * The operations on concrete inputs *)

Lemma hex_pad_length (n : nat) (s : string) : String.length (hex_pad n s) = n.
Proof.
  revert s. induction n as [| n IH]; intros s; [done |].
  destruct s; simpl; by rewrite IH.
Qed.

Lemma hex_pad_no_dot (n : nat) (s : string) :
  JS.includes "." (hex_pad n s) = false.
Proof.
  revert s. induction n as [| n IH]; intros s; [done |].
  destruct s as [| a s]; simpl; rewrite IH; [done |].
  by destruct a as [[] [] [] [] ? ? ? ?].
Qed.

Lemma demo_hmac_length key msg : String.length (demo_hmac key msg) = 64%nat.
Proof. apply hex_pad_length. Qed.

Lemma demo_hmac_hex key msg : JS.includes "." (demo_hmac key msg) = false.
Proof. apply hex_pad_no_dot. Qed.

Lemma office_store_reachable :
  reachable demo_hmac demo_compare strict_cfg office_store.
Proof. eapply reach_step; [apply reach_init | apply op_login]. Qed.

Lemma guesses_in_turn_reachable (n : nat) :
  reachable demo_hmac demo_compare open_cfg (guesses_in_turn n).
Proof.
  induction n as [| n IH]; [apply reach_init |].
  simpl. eapply reach_step; [exact IH | apply op_login].
Qed.

(** Seven wrong guesses in turn: the counter stops at five. *)
Example seven_guesses_in_turn :
  rateLimitMap (guesses_in_turn 7) !! "203.0.113.9" = Some (entry_of 5 250 0).
Proof. by vm_compute. Qed.

(** Four wrong passwords in turn leave one attempt; the fifth leaves none,
    and [login] reports the remaining budget it has just read. *)
Example four_then_five_failed_logins :
  fst (checkRateLimit 5000 "203.0.113.9" (rateLimitMap (guesses_in_turn 4))) =
    {| allowed := true; remaining := 1; retryAfterMs := 0 |}
  /\ fst (checkRateLimit 5000 "203.0.113.9" (rateLimitMap (guesses_in_turn 5))) =
     {| allowed := false; remaining := 0; retryAfterMs := 0 |}
  /\ fst (snd (login demo_hmac demo_compare open_cfg
                (call_at "203.0.113.9" "letmein" 4000 "" "")
                (guesses_in_turn 4))) =
     invalid_password {| allowed := false; remaining := 0; retryAfterMs := 0 |}.
Proof. by vm_compute. Qed.

(** The textual range match at work for the entry [192.168.1.0/16]: an
    address of the /16 outside [192.168.1] is refused, and an address outside
    [192.168.1.0/24] whose text starts with [192.168.1] is accepted. *)
Example range_match_is_textual :
  checkIPAllowlist mixed_cfg "192.168.77.1" = false
  /\ checkIPAllowlist mixed_cfg "192.168.100.7" = true
  /\ checkIPAllowlist mixed_cfg "192.168.1.77" = true.
Proof. by vm_compute. Qed.

Lemma two_addresses_reachable :
  apart_reachable demo_hmac demo_compare open_cfg (two_addresses, []).
Proof.
  assert (Hdistinct : NoDup ["198.51.100.4"; "203.0.113.9"]).
  { apply NoDup_cons. split; [| apply NoDup_singleton].
    intros Hin%list_elem_of_singleton. discriminate. }
  assert (H1 : apart_reachable demo_hmac demo_compare open_cfg
                 (initial_store, [guess])).
  { apply (apart_next _ _ _ (initial_store, [])); [apply apart_init | |].
    - by apply as_login_suspend.
    - apply NoDup_singleton. }
  assert (H2 : apart_reachable demo_hmac demo_compare open_cfg
                 (initial_store, [other_guess; guess])).
  { apply (apart_next _ _ _ (initial_store, [guess])); [exact H1 | |].
    - by apply as_login_suspend.
    - exact Hdistinct. }
  assert (H3 : apart_reachable demo_hmac demo_compare open_cfg
                 (fst (login_resume demo_hmac open_cfg guess false initial_store),
                  [other_guess])).
  { apply (apart_next _ _ _ (initial_store, [other_guess; guess]));
      [exact H2 | |].
    - apply (as_login_resume demo_hmac demo_compare open_cfg guess
               initial_store [other_guess] []).
    - apply NoDup_singleton. }
  apply (apart_next _ _ _
           (fst (login_resume demo_hmac open_cfg guess false initial_store),
            [other_guess])); [exact H3 | |].
  - apply (as_login_resume demo_hmac demo_compare open_cfg other_guess
             (fst (login_resume demo_hmac open_cfg guess false initial_store))
             [] []).
  - constructor.
Qed.

(** Two wrong guesses from two addresses whose password comparisons
    overlap: each address has one counted failure. *)
Lemma separate_logins_never_lock_witness :
  apart_reachable demo_hmac demo_compare open_cfg (two_addresses, [])
  /\ rateLimitMap two_addresses !! "198.51.100.4" = Some (entry_of 1 350 0)
  /\ attempts (entry_of 1 350 0) <= 5
  /\ lockedUntil (entry_of 1 350 0) = 0.
Proof.
  split; [apply two_addresses_reachable |].
  split; [by vm_compute |].
  apply (separate_logins_never_lock demo_hmac demo_compare open_cfg
           (two_addresses, []) two_addresses_reachable "198.51.100.4").
  by vm_compute.
Defined.

Lemma sequential_logins_never_lock_witness :
  reachable demo_hmac demo_compare open_cfg (guesses_in_turn 7)
  /\ rateLimitMap (guesses_in_turn 7) !! "203.0.113.9" = Some (entry_of 5 250 0)
  /\ attempts (entry_of 5 250 0) <= 5
  /\ lockedUntil (entry_of 5 250 0) = 0.
Proof.
  split; [apply guesses_in_turn_reachable |].
  split; [by vm_compute |].
  apply (sequential_logins_never_lock demo_hmac demo_compare open_cfg
           (guesses_in_turn 7) (guesses_in_turn_reachable 7) "203.0.113.9").
  by vm_compute.
Defined.

(** Ten logins with a wrong password from one address, all of them started
    before the first password comparison has finished: each passes the rate
    check on the empty table, each then records its failure, and the tenth
    record locks the address out. *)
Lemma overlapping_logins_lock_out :
  async_reachable demo_hmac demo_compare open_cfg
    (resume_failed demo_hmac open_cfg guess 10 initial_store, [])
  /\ rateLimitMap (resume_failed demo_hmac open_cfg guess 10 initial_store)
       !! "203.0.113.9" = Some (entry_of 10 250 1800250)
  /\ ~ (attempts (entry_of 10 250 1800250) <= 5
        /\ lockedUntil (entry_of 10 250 1800250) = 0)
  /\ ~ (forall w, async_reachable demo_hmac demo_compare open_cfg w ->
          forall addr e, rateLimitMap (fst w) !! addr = Some e ->
            attempts e <= 5 /\ lockedUntil e = 0).
Proof.
  assert (Hrun : async_reachable demo_hmac demo_compare open_cfg
            (resume_failed demo_hmac open_cfg guess 10 initial_store, [])).
  { apply (async_resume_failed demo_hmac demo_compare open_cfg guess 10
             eq_refl 0%nat initial_store).
    apply async_suspend_many; [by vm_compute | apply areach_init]. }
  assert (Hentry : rateLimitMap
            (resume_failed demo_hmac open_cfg guess 10 initial_store)
            !! "203.0.113.9" = Some (entry_of 10 250 1800250))
    by (by vm_compute).
  split; [exact Hrun | split; [exact Hentry | split]].
  - simpl. lia.
  - intros Hall. destruct (Hall _ Hrun _ _ Hentry) as [Hle _].
    simpl in Hle. lia.
Qed.

(** Two logins of one address suspended together are enough to pass the
    bound: after four wrong guesses in turn both pass the check, which reads
    one attempt left, and both record a failure. *)
Example two_overlapping_logins_exceed :
  let c := call_at "203.0.113.9" "letmein" 4000 "" "" in
  let st := resume_failed demo_hmac open_cfg c 2 (guesses_in_turn 4) in
  async_reachable demo_hmac demo_compare open_cfg (st, [])
  /\ rateLimitMap st !! "203.0.113.9" = Some (entry_of 6 250 0).
Proof.
  split; [| by vm_compute].
  apply (async_resume_failed demo_hmac demo_compare open_cfg
           (call_at "203.0.113.9" "letmein" 4000 "" "") 2 eq_refl 0%nat
           (guesses_in_turn 4)).
  apply async_suspend_many; [by vm_compute |].
  apply reachable_async, guesses_in_turn_reachable.
Qed.

Lemma checkRateLimit_budget_witness :
  fst (checkRateLimit 3000 "203.0.113.9" ∅) =
    {| allowed := true; remaining := 5; retryAfterMs := 0 |}
  /\ fst (checkRateLimit 3000 "203.0.113.9"
            (record_failures "203.0.113.9" [0; 500; 1000; 1500] ∅)) =
     {| allowed := true; remaining := 1; retryAfterMs := 0 |}
  /\ fst (checkRateLimit 3000 "203.0.113.9"
            (record_failures "203.0.113.9" [0; 500; 1000; 1500; 2000] ∅)) =
     {| allowed := false; remaining := 0; retryAfterMs := 0 |}.
Proof.
  destruct (checkRateLimit_budget 3000 "203.0.113.9" ∅)
    as (Hnone & _ & Hfour & Hfive).
  split; [apply Hnone; apply lookup_empty | split].
  - apply (Hfour 0 500 1000 1500); [apply lookup_empty | | lia].
    repeat constructor; unfold LOGIN_WINDOW_MS; lia.
  - apply (Hfive 0 500 1000 1500 2000); [apply lookup_empty | | lia].
    repeat constructor; unfold LOGIN_WINDOW_MS; lia.
Defined.

Lemma checkRateLimit_lockout_first_witness :
  ({[ "203.0.113.9" := entry_of 10 0 5000000 ]} : gmap string RateEntry)
    !! "203.0.113.9" = Some (entry_of 10 0 5000000)
  /\ 2000000 < lockedUntil (entry_of 10 0 5000000)
  /\ LOGIN_WINDOW_MS < 2000000 - firstAttempt (entry_of 10 0 5000000)
  /\ checkRateLimit 2000000 "203.0.113.9"
       {[ "203.0.113.9" := entry_of 10 0 5000000 ]} =
     ({| allowed := false; remaining := 0; retryAfterMs := 3000000 |},
      {[ "203.0.113.9" := entry_of 10 0 5000000 ]}).
Proof.
  split; [apply lookup_singleton_eq |].
  split; [simpl; lia |].
  split; [unfold LOGIN_WINDOW_MS; simpl; lia |].
  apply (checkRateLimit_lockout_first 2000000 "203.0.113.9" _
           (entry_of 10 0 5000000)); [apply lookup_singleton_eq | simpl; lia].
Defined.

(** The operator's cookie, presented within the first second from an address
    that is not on the allowlist, is refused although the session is young. *)
Lemma validateSession_young_but_refused :
  activeSession office_store = Some (issued office_login)
  /\ verifySignedValue demo_hmac strict_cfg office_cookie =
     Some (id (issued office_login))
  /\ 1000 - createdAt (issued office_login) <= SESSION_MAX_AGE_MS
  /\ valid (snd (validateSession demo_hmac strict_cfg "10.0.0.6"
                   (Some office_cookie) 1000 office_store)) = false.
Proof. by vm_compute. Qed.

Lemma validateSession_lifetime_witness :
  (valid (snd (validateSession demo_hmac strict_cfg "10.0.0.5"
                 (Some office_cookie) 1000 office_store)) = true
   <-> 1000 - 251 <= SESSION_MAX_AGE_MS)
  /\ valid (snd (validateSession demo_hmac strict_cfg "10.0.0.5"
                   (Some office_cookie) (251 + SESSION_MAX_AGE_MS - 1)
                   office_store)) = true
  /\ valid (snd (validateSession demo_hmac strict_cfg "10.0.0.5"
                   (Some office_cookie) (251 + SESSION_MAX_AGE_MS + 1)
                   office_store)) = false.
Proof.
  destruct (validateSession_lifetime demo_hmac strict_cfg
              "10.0.0.5" office_cookie 1000 office_store (issued office_login))
    as (Hiff & _ & Hbefore & Hafter & _);
    [by vm_compute | by vm_compute | done | by vm_compute |].
  by split; [| split].
Defined.

Lemma validateSession_failures_alike_witness :
  validateSession demo_hmac strict_cfg "10.0.0.5" None 1000 office_store =
    (office_store, {| valid := false; client_ip := "10.0.0.5" |})
  /\ validateSession demo_hmac strict_cfg "10.0.0.5"
       (Some (sessionId office_login +:+ "." +:+
              tamper 0 "f" (demo_hmac (PANEL_SECRET strict_cfg)
                              (sessionId office_login))))
       1000 office_store =
     validateSession demo_hmac strict_cfg "10.0.0.5" None 1000 office_store
  /\ validateSession demo_hmac strict_cfg "10.0.0.5"
       (Some (signValue demo_hmac strict_cfg (sessionId second_login)))
       1000 office_store =
     validateSession demo_hmac strict_cfg "10.0.0.5" None 1000 office_store.
Proof.
  destruct (validateSession_failures_alike demo_hmac strict_cfg
              demo_hmac_length demo_hmac_hex "10.0.0.5" 1000 office_store)
    as (Hnone & Htamper & Hstale).
  split; [exact Hnone | split].
  - apply (Htamper (sessionId office_login) 0%nat "f"%char);
      [vm_compute; lia | by vm_compute].
  - apply Hstale. intros s Hs. vm_compute in Hs. by injection Hs as <-.
Defined.

Lemma login_replaces_session_witness :
  activeSession office_store = Some (issued office_login)
  /\ success (fst (snd (login demo_hmac demo_compare strict_cfg
                          second_login office_store))) = true
  /\ activeSession (fst (login demo_hmac demo_compare strict_cfg
                           second_login office_store)) =
     Some (issued second_login)
  /\ valid (snd (validateSession demo_hmac strict_cfg "10.0.0.5"
                   (Some office_cookie) 61000
                   (fst (login demo_hmac demo_compare strict_cfg
                           second_login office_store)))) = false.
Proof.
  destruct (login_replaces_session demo_hmac demo_compare strict_cfg
              demo_hmac_hex second_login office_store (issued office_login))
    as (Hnew & Hold); [by vm_compute | by vm_compute | by vm_compute |].
  split; [by vm_compute | split; [by vm_compute | split; [exact Hnew |]]].
  change office_cookie with
    (signValue demo_hmac strict_cfg (id (issued office_login))).
  by rewrite Hold.
Defined.

Lemma validateCSRF_exact_witness :
  validateCSRF (Some "c0ffee00c0ffee00") initial_store = false
  /\ validateCSRF None office_store = false
  /\ validateCSRF (Some "c0ffee00c0ffee01") office_store = false
  /\ validateCSRF (Some "c0ffee00c0ffee00") office_store = true.
Proof.
  destruct (validateCSRF_exact (Some "c0ffee00c0ffee00") initial_store)
    as (Hnone & _).
  destruct (validateCSRF_exact None office_store) as (_ & Habsent & _).
  destruct (validateCSRF_exact (Some "c0ffee00c0ffee00") office_store)
    as (_ & _ & Hiff & Hother).
  split; [by apply Hnone | split; [apply Habsent; by left | split]].
  - by apply (Hother (issued office_login)).
  - apply (Hiff (issued office_login)); [done |].
    by exists "c0ffee00c0ffee00".
Defined.

Lemma login_check_order_witness :
  login demo_hmac demo_compare strict_cfg
    (call_at "10.0.0.6" "hunter2" 0 "" "") initial_store =
    (initial_store,
     (denied, [Audit "blocked_ip" "10.0.0.6" (Some "login")]))
  /\ rateLimitMap initial_store !! "10.0.0.6" = None
  /\ login demo_hmac demo_compare unset_cfg
       (call_at "10.0.0.6" "hunter2" 0 "" "") initial_store =
     (initial_store, (unconfigured, []))
  /\ fst (snd (login demo_hmac demo_compare open_cfg guess initial_store)) =
     {| success := false; error := Some "Invalid password";
        login_remaining := Some 4; login_retryAfterMs := None |}
  /\ fst (snd (login demo_hmac demo_compare strict_cfg office_login
                 initial_store)) =
     {| success := true; error := None;
        login_remaining := None; login_retryAfterMs := None |}.
Proof.
  destruct (login_check_order demo_hmac demo_compare open_cfg guess
              initial_store) as (_ & _ & _ & _ & Hpw).
  destruct (Hpw eq_refl eq_refl ltac:(done)) as (_ & Hwrong & _).
  destruct (login_check_order demo_hmac demo_compare strict_cfg office_login
              initial_store) as (_ & _ & _ & _ & Hpw').
  destruct (Hpw' eq_refl eq_refl ltac:(done)) as (_ & _ & Hright).
  destruct (login_check_order demo_hmac demo_compare strict_cfg
              (call_at "10.0.0.6" "hunter2" 0 "" "") initial_store)
    as (Hdenied & _).
  destruct (login_check_order demo_hmac demo_compare unset_cfg
              (call_at "10.0.0.6" "hunter2" 0 "" "") initial_store)
    as (_ & _ & Hunset & _).
  split; [by apply Hdenied | split; [done |]].
  split; [by apply (Hunset [] (areach_init _ _ _)) |].
  split; [by rewrite (Hwrong eq_refl) | by rewrite (Hright eq_refl)].
Defined.

Lemma checkIPAllowlist_spec_witness :
  checkIPAllowlist open_cfg "198.51.100.4" = true
  /\ checkIPAllowlist mixed_cfg "192.168.1.77" = true
  /\ cidr_prefix "192.168.1.0/16" = "192.168.1".
Proof.
  destruct (checkIPAllowlist_spec open_cfg "198.51.100.4") as (Hopen & _).
  destruct (checkIPAllowlist_spec mixed_cfg "192.168.1.77")
    as (_ & Hiff & Hprefix).
  split; [by apply Hopen | split].
  - apply Hiff; [done |]. exists "192.168.1.0/16".
    split; [right; by left |]. right. split; [done |]. by exists ".77".
  - by apply (Hprefix "192" "168" "1" "0" "16").
Defined.

Lemma validateCSRF_ignores_age_witness :
  activeSession office_store = Some (issued office_login)
  /\ SESSION_MAX_AGE_MS < 90000000 - createdAt (issued office_login)
  /\ validateCSRF (Some "c0ffee00c0ffee00") office_store = true
  /\ snd (requireAuth demo_hmac strict_cfg "10.0.0.5" (Some office_cookie)
            90000000 office_store) =
     inl {| message := "Unauthorized"; status := 401 |}.
Proof.
  destruct (validateCSRF_ignores_age demo_hmac strict_cfg office_store
              (issued office_login) 90000000)
    as (Hcsrf & _ & Hauth); [done | done | by vm_compute |].
  split; [done | split; [by vm_compute | split; [exact Hcsrf | apply Hauth]]].
Defined.

(** * Further properties of the module *)

(** ** Signed values *)

(** X1. With a digest that contains no dot, [verifySignedValue] accepts
    exactly the strings [signValue] produces, and returns what was signed. *)
Theorem verifySignedValue_iff
  (hmac_sha256_hex : string -> string -> string) (cfg : Config)
  (digest_hex : forall key msg,
      JS.includes "." (hmac_sha256_hex key msg) = false)
  (signed value : string) :
  verifySignedValue hmac_sha256_hex cfg signed = Some value
  <-> signed = signValue hmac_sha256_hex cfg value.
Proof.
  split.
  - apply verifySignedValue_sound.
  - intros ->. by apply verifySignedValue_signValue.
Qed.

(** ** Counting failures *)

Lemma record_failures_cons addr t (times : list Z) (m : gmap string RateEntry) :
  record_failures addr (t :: times) m =
  record_failures addr times (recordFailedAttempt t addr m).
Proof. reflexivity. Qed.

Lemma record_failures_entry addr (times : list Z) :
  forall (m : gmap string RateEntry) e,
    m !! addr = Some e ->
    Forall (fun t => t - firstAttempt e <= LOGIN_WINDOW_MS) times ->
    record_failures addr times m !! addr =
    Some (entry_of (attempts e + Z.of_nat (length times)) (firstAttempt e)
            (match last times with
             | Some t =>
                 if attempts e + Z.of_nat (length times) >=? LOCKOUT_ATTEMPTS
                 then t + LOCKOUT_DURATION_MS else lockedUntil e
             | None => lockedUntil e
             end)).
Proof.
  induction times as [| t times IH]; intros m e Hm Hall.
  - simpl. rewrite Hm, Z.add_0_r. by destruct e.
  - apply Forall_cons in Hall as [Ht Hall].
    rewrite record_failures_cons.
    pose proof (recordFailedAttempt_again t addr m e Hm Ht) as Hb.
    rewrite (IH _ _ Hb Hall). clear IH.
    cbn [bump_entry attempts firstAttempt lockedUntil].
    rewrite length_cons, Nat2Z.inj_succ.
    replace (attempts e + 1 + Z.of_nat (length times))
      with (attempts e + Z.succ (Z.of_nat (length times))) by lia.
    destruct times as [| t2 times]; [done |].
    rewrite last_cons_cons.
    destruct (last (t2 :: times)) as [u|] eqn:Hlast.
    + destruct (Z.geb_spec (attempts e + Z.succ (Z.of_nat (length (t2 :: times))))
                  LOCKOUT_ATTEMPTS) as [Hge | Hlt]; [done |].
      destruct (Z.geb_spec (attempts e + 1) LOCKOUT_ATTEMPTS); [| done].
      rewrite length_cons, Nat2Z.inj_succ in Hlt. lia.
    + by apply last_None in Hlast.
Qed.

(** X2. Failures recorded for an address without entry, all inside the
    window the first one opens, are all counted; as soon as ten are counted
    the entry is locked for 30 minutes from the latest failure, and each
    further failure in that window moves the lock. While it is locked
    [checkRateLimit] refuses and reports the time left. *)
Theorem record_failures_lockout (addr : string) (t1 : Z) (times : list Z)
  (m : gmap string RateEntry) :
  m !! addr = None ->
  Forall (fun t => t - t1 <= LOGIN_WINDOW_MS) times ->
  let n := Z.of_nat (length (t1 :: times)) in
  let latest := default t1 (last times) in
  record_failures addr (t1 :: times) m !! addr =
  Some (entry_of n t1 (if n >=? 10 then latest + LOCKOUT_DURATION_MS else 0))
  /\ (10 <= n ->
      forall now, now < latest + LOCKOUT_DURATION_MS ->
        fst (checkRateLimit now addr (record_failures addr (t1 :: times) m)) =
        {| allowed := false; remaining := 0;
           retryAfterMs := latest + LOCKOUT_DURATION_MS - now |}).
Proof.
  intros Hm Hall n latest.
  assert (He : record_failures addr (t1 :: times) m !! addr =
    Some (entry_of n t1 (if n >=? 10 then latest + LOCKOUT_DURATION_MS else 0))).
  { rewrite record_failures_cons.
    rewrite (record_failures_entry addr times _ (fresh_entry t1));
      [| by apply recordFailedAttempt_first | done].
    cbn [fresh_entry attempts firstAttempt lockedUntil].
    unfold n, latest. rewrite length_cons, Nat2Z.inj_succ.
    replace (1 + Z.of_nat (length times)) with (Z.succ (Z.of_nat (length times)))
      by lia.
    destruct (last times) as [u|] eqn:Hlast; simpl; [done |].
    apply last_None in Hlast as ->. simpl. done. }
  split; [exact He |].
  intros Hn now Hnow.
  rewrite (checkRateLimit_locked now addr _ _ He); simpl;
    destruct (Z.geb_spec n 10); try lia; done.
Qed.

(** ** The cleanup timer *)

Lemma checkRateLimit_fst_lookup now addr (m1 m2 : gmap string RateEntry) :
  m1 !! addr = m2 !! addr ->
  fst (checkRateLimit now addr m1) = fst (checkRateLimit now addr m2).
Proof.
  intros H. unfold checkRateLimit. rewrite H.
  destruct (m2 !! addr) as [e|]; [| done].
  destruct (lockedUntil e >? now); [done |].
  by destruct (now - firstAttempt e >? LOGIN_WINDOW_MS).
Qed.

(** X3. The cleanup run at [now] is invisible to every later check and to
    every later recorded failure: at any instant from [now] on,
    [checkRateLimit] reports the same for every address with or without the
    run, and [recordFailedAttempt] leaves the same entry. In particular the
    run keeps every entry whose lock has not passed. *)
Theorem sweep_unobservable (now later : Z) (addr : string)
  (m : gmap string RateEntry) :
  now <= later ->
  fst (checkRateLimit later addr (sweep now m)) =
    fst (checkRateLimit later addr m)
  /\ recordFailedAttempt later addr (sweep now m) !! addr =
     recordFailedAttempt later addr m !! addr
  /\ (forall e, m !! addr = Some e -> now <= lockedUntil e ->
        sweep now m !! addr = Some e).
Proof.
  intros Hle. pose proof (sweep_lookup now addr m) as Hs.
  split; [| split].
  - destruct (m !! addr) as [e|] eqn:Hm; [| by apply checkRateLimit_fst_lookup; rewrite Hs, Hm].
    destruct (stale now e) eqn:Hst; [| by apply checkRateLimit_fst_lookup; rewrite Hs, Hm].
    apply andb_true_iff in Hst as [Hw%Z.gtb_lt Hl%Z.gtb_lt].
    rewrite (checkRateLimit_none later addr (sweep now m) Hs).
    rewrite (checkRateLimit_expired later addr m e); [done | done | lia | lia].
  - unfold recordFailedAttempt. rewrite Hs.
    destruct (m !! addr) as [e|] eqn:Hm; [| by rewrite !lookup_insert_eq].
    destruct (stale now e) eqn:Hst.
    + apply andb_true_iff in Hst as [Hw%Z.gtb_lt Hl%Z.gtb_lt].
      destruct (Z.gtb_spec (later - firstAttempt e) LOGIN_WINDOW_MS); [| lia].
      by rewrite !lookup_insert_eq.
    + destruct (later - firstAttempt e >? LOGIN_WINDOW_MS);
        by rewrite !lookup_insert_eq.
  - intros e Hm Hl. rewrite Hs, Hm. unfold stale.
    destruct (Z.gtb_spec now (lockedUntil e)); [lia |]. by rewrite andb_false_r.
Qed.

(** ** Login and the rate limiter *)

Lemma checkRateLimit_retry_zero now addr (m : gmap string RateEntry) :
  table_bounded m -> 0 <= now ->
  retryAfterMs (fst (checkRateLimit now addr m)) = 0.
Proof.
  intros Hb Hnow. unfold checkRateLimit.
  destruct (m !! addr) as [e|] eqn:He; [| done].
  destruct (Hb _ _ He) as [_ Hl]. rewrite Hl.
  destruct (Z.gtb_spec 0 now); [lia |].
  by destruct (now - firstAttempt e >? LOGIN_WINDOW_MS).
Qed.

Lemma checkRateLimit_other now addr other (m : gmap string RateEntry) :
  other <> addr -> snd (checkRateLimit now addr m) !! other = m !! other.
Proof.
  intros Hne. destruct (checkRateLimit_table now addr m) as [-> | ->];
    [done | by rewrite lookup_delete_ne].
Qed.

Section MoreLogin.

Variable hmac_sha256_hex : string -> string -> string.
Variable bcrypt_compare : string -> string -> bool.
Variable cfg : Config.

Local Abbreviation sign := (signValue hmac_sha256_hex cfg).
Local Abbreviation verify := (verifySignedValue hmac_sha256_hex cfg).
Local Abbreviation login' := (login hmac_sha256_hex bcrypt_compare cfg).
Local Abbreviation validate := (validateSession hmac_sha256_hex cfg).
Local Abbreviation reach := (reachable hmac_sha256_hex bcrypt_compare cfg).

Lemma reachable_bounded (st : Store) :
  reach st -> table_bounded (rateLimitMap st).
Proof.
  induction 1 as [| st st' _ IH Hstep]; [apply table_bounded_empty |].
  by apply (op_step_bounded hmac_sha256_hex bcrypt_compare cfg st st').
Qed.

(** [login] unfolded along its checks. *)
Lemma login_cases (c : LoginCall) (st : Store) :
  let rc := checkRateLimit (tCheck c) (caller c) (rateLimitMap st) in
  login' c st =
  if negb (checkIPAllowlist cfg (caller c)) then
    (st, (denied, [Audit "blocked_ip" (caller c) (Some "login")]))
  else if negb (allowed (fst rc)) then
    (st, (throttled (fst rc), [Audit "rate_limited" (caller c) (Some "login")]))
  else if negb (JS.truthy (PANEL_PASSWORD_HASH cfg)) then
    (with_rate st (snd rc), (unconfigured, []))
  else
    login_resume hmac_sha256_hex cfg c
      (bcrypt_compare (password c) (PANEL_PASSWORD_HASH cfg))
      (with_rate st (snd rc)).
Proof.
  intros rc. unfold login. rewrite login_begin_cases. fold rc.
  destruct (negb (checkIPAllowlist cfg (caller c))); [done |].
  destruct (negb (allowed (fst rc))); [done |].
  by destruct (negb (JS.truthy (PANEL_PASSWORD_HASH cfg))).
Qed.

(** X4. As long as calls do not overlap, a login that is refused with
    "Too many attempts" at a clock reading that is not negative tells the
    caller to retry after 0 ms: the refusal always comes from the count of
    five, never from a lock, and the store is left as it is. *)
Theorem soft_limit_gives_no_retry_time (c : LoginCall) (st : Store) :
  reach st ->
  0 <= tCheck c ->
  error (fst (snd (login' c st))) = Some "Too many attempts. Try again later." ->
  login' c st =
  (st, ({| success := false;
           error := Some "Too many attempts. Try again later.";
           login_remaining := Some 0; login_retryAfterMs := Some 0 |},
        [Audit "rate_limited" (caller c) (Some "login")])).
Proof.
  intros Hr Hnow. rewrite login_cases.
  destruct (negb (checkIPAllowlist cfg (caller c))); [done |].
  destruct (negb (allowed _)).
  - intros _. unfold throttled.
    by rewrite (checkRateLimit_retry_zero _ _ _ (reachable_bounded st Hr) Hnow).
  - destruct (negb (JS.truthy (PANEL_PASSWORD_HASH cfg))); [done |].
    unfold login_resume. by destruct (bcrypt_compare _ _).
Qed.

(** X5. A call of [login] changes no rate-limit entry but the caller's, and
    a successful one removes the caller's entry, so that the next check for
    that address reports the full budget at any instant. *)
Theorem login_touches_only_caller (c : LoginCall) (st : Store) :
  (forall other, other <> caller c ->
     rateLimitMap (fst (login' c st)) !! other = rateLimitMap st !! other)
  /\ (success (fst (snd (login' c st))) = true ->
      rateLimitMap (fst (login' c st)) !! caller c = None
      /\ forall now,
           fst (checkRateLimit now (caller c) (rateLimitMap (fst (login' c st))))
           = {| allowed := true; remaining := 5; retryAfterMs := 0 |}).
Proof.
  rewrite login_cases. split.
  - intros other Hne.
    destruct (negb (checkIPAllowlist cfg (caller c))); [done |].
    destruct (negb (allowed _)); [done |].
    destruct (negb (JS.truthy (PANEL_PASSWORD_HASH cfg))); simpl;
      [by apply checkRateLimit_other |].
    unfold login_resume. destruct (bcrypt_compare _ _); simpl.
    + unfold clearRateLimit. rewrite lookup_delete_ne by done.
      by apply checkRateLimit_other.
    + rewrite checkRateLimit_other by done.
      rewrite recordFailedAttempt_other by done.
      by apply checkRateLimit_other.
  - destruct (negb (checkIPAllowlist cfg (caller c))); [done |].
    destruct (negb (allowed _)); [done |].
    destruct (negb (JS.truthy (PANEL_PASSWORD_HASH cfg))); [done |].
    unfold login_resume. destruct (bcrypt_compare _ _); simpl; [| done].
    intros _. unfold clearRateLimit.
    split; [apply lookup_delete_eq |].
    intros now. rewrite checkRateLimit_none; [done | apply lookup_delete_eq].
Qed.

Lemma login_session_slot (c : LoginCall) (st : Store) :
  activeSession (fst (login' c st)) =
  if success (fst (snd (login' c st))) then Some (issued c)
  else activeSession st.
Proof.
  rewrite login_cases.
  destruct (negb (checkIPAllowlist cfg (caller c))); [done |].
  destruct (negb (allowed _)); [done |].
  destruct (negb (JS.truthy (PANEL_PASSWORD_HASH cfg))); [done |].
  unfold login_resume. by destruct (bcrypt_compare _ _).
Qed.

(** X6. A call of [login] that does not succeed leaves the session slot as
    it is; one that succeeds puts the session it built there. *)
Theorem failed_login_keeps_session (c : LoginCall) (st : Store) :
  activeSession (fst (login' c st)) =
  if success (fst (snd (login' c st))) then Some (issued c)
  else activeSession st.
Proof. apply login_session_slot. Qed.

Lemma login_success_allowlisted (c : LoginCall) (st : Store) :
  success (fst (snd (login' c st))) = true ->
  checkIPAllowlist cfg (caller c) = true.
Proof.
  rewrite login_cases.
  by destruct (checkIPAllowlist cfg (caller c)).
Qed.

Hypothesis digest_hex :
  forall key msg, JS.includes "." (hmac_sha256_hex key msg) = false.

(** X7. After a successful [login] with non-empty tokens, the two cookies it
    sets open the panel: presented from the same address at an instant at
    which the session is at most 24 hours old, the session cookie passes
    [requireAuth], which returns the address, and the CSRF cookie's value,
    sent as header, then passes [requireCSRF]. The session cookie is
    HttpOnly, the CSRF cookie is not, and both last 86400 seconds. *)
Theorem login_then_authorized (c : LoginCall) (st : Store) (now : Z) :
  success (fst (snd (login' c st))) = true ->
  sessionId c <> "" ->
  freshCsrf c <> "" ->
  now - tCreated c <= SESSION_MAX_AGE_MS ->
  exists sessionCookie csrfCookie,
    snd (snd (login' c st)) =
      [SetCookie "lsp_session" sessionCookie true 86400;
       SetCookie "lsp_csrf" csrfCookie false 86400;
       Audit "login_success" (caller c) None]
    /\ snd (requireAuth hmac_sha256_hex cfg (caller c) (Some sessionCookie) now
              (fst (login' c st))) = inr (caller c)
    /\ requireCSRF (Some csrfCookie)
         (fst (requireAuth hmac_sha256_hex cfg (caller c) (Some sessionCookie)
                 now (fst (login' c st)))) = inr tt.
Proof.
  intros Hok Hsid Hcsrf Hage.
  destruct (login_success_session hmac_sha256_hex bcrypt_compare cfg c st Hok)
    as [Hs Hout].
  exists (sign (sessionId c)), (freshCsrf c).
  split; [exact Hout |].
  unfold requireAuth.
  rewrite (validateSession_own_cookie hmac_sha256_hex cfg (caller c) _ now _
             (issued c));
    [| by apply (login_success_allowlisted c st) | done | done
     | by apply verifySignedValue_signValue].
  cbn [issued createdAt].
  destruct (Z.gtb_spec (now - tCreated c) SESSION_MAX_AGE_MS); [lia |].
  split; [done |]. simpl.
  unfold requireCSRF, validateCSRF. simpl.
  rewrite (truthy_nonempty _ Hcsrf). simpl. by rewrite String.eqb_refl.
Qed.

(** X8. [logout] empties the session slot and leaves the rate-limit table
    alone; afterwards every [validateSession] is rejected without changing
    the store and every [validateCSRF] is false, whatever is presented, and
    a second [logout] changes nothing. *)
Theorem logout_ends_session (addr : string) (st : Store) :
  let st' := fst (logout addr st) in
  activeSession st' = None
  /\ rateLimitMap st' = rateLimitMap st
  /\ (forall a cookie now, validate a cookie now st' = (st', rejected a))
  /\ (forall header, validateCSRF header st' = false)
  /\ fst (logout addr st') = st'.
Proof.
  simpl. repeat split.
  intros a cookie now. unfold validateSession. simpl.
  destruct (negb (checkIPAllowlist cfg a)); [done |].
  destruct cookie as [ck|]; [| done].
  destruct (negb (JS.truthy ck)); [done |].
  destruct (verify ck) as [sid|]; [| done].
  by destruct (negb (JS.truthy sid)).
Qed.

(** X9. [validateSession] never replaces a live session by another one: the
    slot keeps a session with the same id, CSRF token, creation instant and
    address, or it is emptied, and it is emptied only when the session is
    older than 24 hours and its own signed id is presented from an address
    that passes the allowlist. *)
Theorem validateSession_keeps_or_expires (addr : string)
  (cookie : option string) (now : Z) (st : Store) (s : Session) :
  activeSession st = Some s ->
  match activeSession (fst (validate addr cookie now st)) with
  | Some s' =>
      id s' = id s /\ csrfToken s' = csrfToken s
      /\ createdAt s' = createdAt s /\ ip s' = ip s
  | None =>
      SESSION_MAX_AGE_MS < now - createdAt s
      /\ checkIPAllowlist cfg addr = true
      /\ exists ck, cookie = Some ck /\ verify ck = Some (id s)
  end.
Proof.
  intros Hs. unfold validateSession.
  destruct (checkIPAllowlist cfg addr) eqn:Hip; simpl; [| by rewrite Hs].
  destruct cookie as [ck|]; [| simpl; by rewrite Hs].
  destruct (negb (JS.truthy ck)); [simpl; by rewrite Hs |].
  destruct (verify ck) as [sid|] eqn:Hv; [| simpl; by rewrite Hs].
  destruct (negb (JS.truthy sid)); [simpl; by rewrite Hs |].
  destruct (activeSession st) as [s0|] eqn:Hs0; [| done].
  injection Hs as ->.
  destruct (String.eqb_spec (id s) sid) as [<- | Hne]; simpl;
    [| by rewrite Hs0].
  destruct (Z.gtb_spec (now - createdAt s) SESSION_MAX_AGE_MS); simpl; [| done].
  split; [lia |]. split; [done |]. by exists ck.
Qed.

End MoreLogin.

(** ** The caller's address *)

Lemma split_first_no_sep c (s : string) :
  JS.includes c (JS.first (JS.split c s)) = false.
Proof.
  induction s as [| a s IH]; simpl; [done |].
  destruct (Ascii.eqb a c) eqn:Ha; [done |].
  destruct (JS.split c s) as [| w ws]; simpl in *; by rewrite Ha.
Qed.

Lemma trimStart_includes c (s : string) :
  JS.includes c s = false -> JS.includes c (Text.trimStart s) = false.
Proof.
  induction s as [| a s IH]; simpl; [done |].
  intros [Ha Hs]%orb_false_iff.
  destruct (Text.is_space a); [by apply IH |]. simpl. by rewrite Ha, Hs.
Qed.

Lemma trimEnd_includes c (s : string) :
  JS.includes c s = false -> JS.includes c (Text.trimEnd s) = false.
Proof.
  induction s as [| a s IH]; simpl; [done |].
  intros [Ha Hs]%orb_false_iff. specialize (IH Hs).
  destruct (Text.trimEnd s) as [| b t].
  - destruct (Text.is_space a); simpl; [done | by rewrite Ha].
  - simpl in *. by rewrite Ha, IH.
Qed.

Lemma trim_includes c (s : string) :
  JS.includes c s = false -> JS.includes c (Text.trim s) = false.
Proof. intros H. by apply trimEnd_includes, trimStart_includes. Qed.

(** X10. [getClientIP] never returns the empty string. When the forwarded
    header is present and what stands before its first comma is not blank,
    the result is that text trimmed, it contains no comma, and the other
    header is not looked at; otherwise the result is the real-ip header
    when that is present and not empty, and ["unknown"] when it is not. *)
Theorem getClientIP_resolution (forwarded real : option string) :
  getClientIP forwarded real <> ""
  /\ (forall v, forwarded = Some v ->
        Text.trim (JS.first (JS.split "," v)) <> "" ->
        getClientIP forwarded real = Text.trim (JS.first (JS.split "," v))
        /\ JS.includes "," (getClientIP forwarded real) = false)
  /\ (forwarded = None
      \/ (exists v, forwarded = Some v
                    /\ Text.trim (JS.first (JS.split "," v)) = "") ->
      getClientIP forwarded real =
      match real with
      | Some r => if JS.truthy r then r else "unknown"
      | None => "unknown"
      end).
Proof.
  unfold getClientIP, or_else, first_forwarded. split; [| split].
  - destruct forwarded as [v|].
    + destruct (Text.trim (JS.first (JS.split "," v))) eqn:Ht; simpl.
      * destruct real as [[| a r]|]; by simpl.
      * done.
    + destruct real as [[| a r]|]; by simpl.
  - intros v -> Hne.
    assert (Hin : JS.includes "," (Text.trim (JS.first (JS.split "," v))) = false)
      by apply trim_includes, split_first_no_sep.
    destruct (Text.trim (JS.first (JS.split "," v))) eqn:Ht; [done |].
    by simpl.
  - intros [-> | (v & -> & Hblank)].
    + destruct real as [[| a r]|]; by simpl.
    + rewrite Hblank. simpl. destruct real as [[| a r]|]; by simpl.
Qed.

(** ** Shell execution *)

Lemma all_chars_impl (p q : ascii -> bool) (s : string) :
  (forall a, p a = true -> q a = true) ->
  all_chars p s = true -> all_chars q s = true.
Proof.
  intros Hpq. induction s as [| a s IH]; simpl; [done |].
  intros [Ha Hs]%andb_true_iff. by rewrite (Hpq a Ha), IH.
Qed.

Lemma all_chars_app (p : ascii -> bool) (s t : string) :
  all_chars p (s +:+ t) = all_chars p s && all_chars p t.
Proof.
  induction s as [| a s IH]; simpl; [done |]. by rewrite IH, andb_assoc.
Qed.

Lemma all_chars_excludes (p : ascii -> bool) c (s : string) :
  p c = false -> all_chars p s = true -> JS.includes c s = false.
Proof.
  intros Hc. induction s as [| a s IH]; simpl; [done |].
  intros [Ha Hs]%andb_true_iff. rewrite (IH Hs), orb_false_r.
  destruct (Ascii.eqb_spec a c) as [-> | _]; [congruence | done].
Qed.

Lemma meta_free_not_dangerous (s : string) :
  all_chars meta_free s = true -> dangerous s = false.
Proof.
  intros Hs. unfold dangerous.
  rewrite !(all_chars_excludes meta_free _ s) by done. simpl.
  induction s as [| a s IH]; [done |].
  simpl in Hs. apply andb_true_iff in Hs as [Ha Hs].
  cbn [Text.includesStr JS.startsWith]. rewrite (IH Hs), orb_false_r.
  destruct (Ascii.eqb_spec a "$") as [-> | _]; [done | done].
Qed.

Lemma name_char_meta_free (a : ascii) :
  is_name_char a = true -> meta_free a = true.
Proof. destruct a as [[] [] [] [] [] [] [] []]; by vm_compute. Qed.

Lemma endsWith_suffix (s suffix : string) :
  Text.endsWith s suffix = true -> exists pre, s = pre +:+ suffix.
Proof.
  induction s as [| a s IH].
  - change (Text.endsWith "" suffix) with (String.eqb "" suffix || false).
    rewrite orb_false_r. intros <-%String.eqb_eq. by exists "".
  - change (Text.endsWith (String a s) suffix)
      with (String.eqb (String a s) suffix || Text.endsWith s suffix).
    intros [<-%String.eqb_eq | Hs]%orb_true_iff; [by exists "" |].
    destruct (IH Hs) as [pre ->]. by exists (String a pre).
Qed.

Lemma valid_name_chars (name : string) :
  validateServiceName name = true ->
  name <> "" /\ all_chars is_name_char name = true
  /\ (String.length name <= 128)%nat.
Proof.
  unfold validateServiceName, SERVICE_NAME_RE_test.
  intros [[Ht Hc]%andb_true_iff Hl%Nat.leb_le]%andb_true_iff.
  by split; [apply truthy_true | split].
Qed.

Lemma valid_name_unit (name : string) :
  validateServiceName name = true -> unit_of name = name +:+ ".service".
Proof.
  intros (_ & Hc & _)%valid_name_chars. unfold unit_of.
  destruct (Text.endsWith name ".service") eqn:He; [| done].
  apply endsWith_suffix in He as [pre Hpre].
  assert (Hdot : JS.includes "." name = false)
    by (by apply (all_chars_excludes is_name_char)).
  rewrite Hpre, includes_app in Hdot. simpl in Hdot.
  by rewrite orb_true_r in Hdot.
Qed.

Lemma valid_name_unit_clean (name : string) :
  validateServiceName name = true -> dangerous (unit_of name) = false.
Proof.
  intros Hv. rewrite (valid_name_unit name Hv).
  apply meta_free_not_dangerous. rewrite all_chars_app.
  apply valid_name_chars in Hv as (_ & Hc & _).
  by rewrite (all_chars_impl _ _ _ name_char_meta_free Hc).
Qed.

(** X11. A name that [validateServiceName] accepts is not empty, has at most
    128 characters and holds none of the characters outside
    [[a-zA-Z0-9_-]], so no dot, slash, blank or shell metacharacter; the unit
    built from it is always the name followed by [.service], and
    [safeExec]'s test for dangerous characters never fires on it. *)
Theorem validateServiceName_safe (name : string) :
  validateServiceName name = true ->
  name <> ""
  /\ (String.length name <= 128)%nat
  /\ (forall c, is_name_char c = false -> JS.includes c name = false)
  /\ JS.includes "." name = false
  /\ JS.includes "/" name = false
  /\ unit_of name = name +:+ ".service"
  /\ dangerous (unit_of name) = false.
Proof.
  intros Hv. destruct (valid_name_chars name Hv) as (Hne & Hc & Hl).
  split; [done |]. split; [done |].
  split; [intros c Hc'; by apply (all_chars_excludes is_name_char) |].
  split; [by apply (all_chars_excludes is_name_char) |].
  split; [by apply (all_chars_excludes is_name_char) |].
  split; [by apply valid_name_unit | by apply valid_name_unit_clean].
Qed.

Section ShellProperties.

Variable execFile : string -> list string -> Z -> ExecOutcome.
Variable String_of_number : Z -> string.

Local Abbreviation exec := (safeExec execFile).

Lemma find_dangerous_none (args : list string) :
  Forall (fun a => dangerous a = false) args -> find dangerous args = None.
Proof.
  induction 1 as [| a args Ha _ IH]; [done |]. simpl. by rewrite Ha.
Qed.

(** [safeExec] for the command [sudo], an allowlisted first argument and
    arguments without dangerous characters. *)
Lemma safeExec_sudo (cmd : string) (rest : list string) (timeout : option Z) :
  set_has ALLOWED_COMMANDS cmd = true ->
  Forall (fun a => dangerous a = false) (cmd :: rest) ->
  exec "sudo" (cmd :: rest) timeout =
  match execFile "sudo" (cmd :: rest) (default 10000 timeout) with
  | ExecOk out err => inr (out, err)
  | ExecFail msg err_code err =>
      inl {| shell_message := or_default msg "Command failed";
             code := err_code; stderr := or_default err "" |}
  end.
Proof.
  intros Hcmd Hargs.
  assert (Ht : JS.truthy cmd = true).
  { destruct cmd; [by vm_compute in Hcmd | done]. }
  unfold safeExec. rewrite String.eqb_refl. cbn [head].
  rewrite Hcmd, Ht. cbn [negb orb].
  by rewrite (find_dangerous_none _ Hargs).
Qed.

(** X12. [safeExec] hands a command to [execFile] only when the command, or
    for [sudo] its first argument, is on the allowlist and no argument holds
    a dangerous character; the output it returns is the one [execFile]
    resolved to, with the timeout defaulting to 10 seconds. *)
Theorem safeExec_runs_only_allowlisted (command : string)
  (args : list string) (timeout : option Z) (out err : string) :
  exec command args timeout = inr (out, err) ->
  (command <> "sudo" -> In command ALLOWED_COMMANDS)
  /\ (command = "sudo" ->
      exists cmd rest, args = cmd :: rest /\ In cmd ALLOWED_COMMANDS)
  /\ Forall (fun a => dangerous a = false) args
  /\ execFile command args (default 10000 timeout) = ExecOk out err.
Proof.
  unfold safeExec.
  set (actual := if String.eqb command "sudo" then head args else Some command).
  destruct actual as [a|] eqn:Ha; [| by simpl].
  destruct (JS.truthy a); [| by simpl].
  destruct (set_has ALLOWED_COMMANDS a) eqn:Hallowed; [| by simpl].
  cbn [negb orb].
  destruct (find dangerous args) as [bad|] eqn:Hfind; [done |].
  destruct (execFile command args (default 10000 timeout)) as [o e | ? ? ?] eqn:He;
    [| done].
  intros [= <- <-].
  assert (Hin : In a ALLOWED_COMMANDS).
  { unfold set_has in Hallowed. apply existsb_exists in Hallowed as (x & Hx & Heq).
    by apply String.eqb_eq in Heq as ->. }
  unfold actual in Ha. clear actual.
  destruct (String.eqb_spec command "sudo") as [-> | Hne].
  - split; [done |]. split.
    + intros _. destruct args as [| cmd rest]; [done |].
      injection Ha as ->. by exists a, rest.
    + split; [| done]. apply Forall_forall. intros x Hx.
      destruct (dangerous x) eqn:Hd; [| done].
      apply list_elem_of_In in Hx.
      by destruct (find_none _ _ Hfind x Hx).
  - injection Ha as ->. split; [done |]. split; [done |].
    split; [| done]. apply Forall_forall. intros x Hx.
    destruct (dangerous x) eqn:Hd; [| done].
    apply list_elem_of_In in Hx.
    by destruct (find_none _ _ Hfind x Hx).
Qed.

(** X22. Under [sudo] the allowlist is applied to the first argument and to
    nothing else: whatever follows an allowlisted first argument, [sudo]
    itself included, is handed to [execFile] as long as no argument holds a
    dangerous character, and the result is the one of the run. *)
Theorem safeExec_sudo_checks_first_only (cmd : string) (rest : list string)
  (timeout : option Z) :
  In cmd ALLOWED_COMMANDS ->
  Forall (fun a => dangerous a = false) rest ->
  exec "sudo" (cmd :: rest) timeout =
  match execFile "sudo" (cmd :: rest) (default 10000 timeout) with
  | ExecOk out err => inr (out, err)
  | ExecFail msg err_code err =>
      inl {| shell_message := or_default msg "Command failed";
             code := err_code; stderr := or_default err "" |}
  end.
Proof.
  intros Hin Hrest. apply safeExec_sudo.
  - unfold set_has. apply existsb_exists. exists cmd.
    split; [done | apply String.eqb_refl].
  - constructor; [| done].
    simpl in Hin. by repeat (destruct Hin as [<- | Hin]; [by vm_compute |]).
Qed.

Lemma valid_action_clean (action : string) :
  validateAction action = true -> dangerous action = false.
Proof.
  unfold validateAction, set_has. intros H.
  apply existsb_exists in H as (x & Hx & Heq).
  apply String.eqb_eq in Heq as ->.
  simpl in Hx. by repeat (destruct Hx as [<- | Hx]; [by vm_compute |]).
Qed.

(** X13. [systemctl] refuses an action outside its seven actions and then a
    name that [validateServiceName] rejects, each with its own message and
    without running anything. For a valid action and name it runs exactly
    [sudo systemctl <action> <name>.service] with the default timeout,
    [safeExec]'s own checks always pass, and the result is the trimmed
    output or the error of the run. *)
Theorem systemctl_invocation (action name : string) :
  (validateAction action = false ->
   systemctl execFile action name =
   inl {| shell_message := "Invalid systemctl action: " +:+ action;
          code := None; stderr := "" |})
  /\ (validateAction action = true -> validateServiceName name = false ->
      systemctl execFile action name =
      inl {| shell_message := "Invalid service name: " +:+ name;
             code := None; stderr := "" |})
  /\ (validateAction action = true -> validateServiceName name = true ->
      systemctl execFile action name =
      match execFile "sudo" ["systemctl"; action; name +:+ ".service"] 10000 with
      | ExecOk out _ => inr (Text.trim out)
      | ExecFail msg err_code err =>
          inl {| shell_message := or_default msg "Command failed";
                 code := err_code; stderr := or_default err "" |}
      end).
Proof.
  unfold systemctl. split; [| split].
  - by intros ->.
  - by intros -> ->.
  - intros Ha Hn. rewrite Ha, Hn. simpl.
    rewrite safeExec_sudo.
    + rewrite (valid_name_unit name Hn). simpl. by destruct (execFile _ _ _).
    + done.
    + repeat constructor;
        [by apply valid_action_clean | by apply valid_name_unit_clean].
Qed.

Hypothesis number_clean : forall n, dangerous (String_of_number n) = false.

Lemma clean_literals :
  Forall (fun a => dangerous a = false)
    ["journalctl"; "-u"; "--no-pager"; "-o"; "short-iso"; "-n"; "100"; "--since"].
Proof. repeat constructor. Qed.

Lemma digit_meta_free (a : ascii) : is_digit a = true -> meta_free a = true.
Proof.
  intros H. apply name_char_meta_free. unfold is_name_char.
  rewrite H. by rewrite !orb_true_r.
Qed.

Lemma unit_meta_free (a : ascii) : is_unit a = true -> meta_free a = true.
Proof.
  unfold is_unit. intros H.
  repeat (apply orb_true_iff in H as [H | H]);
    by apply Ascii.eqb_eq in H as ->.
Qed.

Lemma dropDigits_meta_free (s : string) (u : ascii) :
  dropDigits s = String u EmptyString -> is_unit u = true ->
  all_chars meta_free s = true.
Proof.
  intros Hs Hu. induction s as [| a s IH]; [done |].
  simpl in Hs. cbn [all_chars]. destruct (is_digit a) eqn:Ha.
  - by rewrite (digit_meta_free a Ha), IH.
  - injection Hs as -> ->. by rewrite (unit_meta_free u Hu).
Qed.

Lemma since_relative_clean (s : string) :
  since_relative s = true -> dangerous s = false.
Proof.
  unfold since_relative. destruct s as [| a s]; [done |].
  intros H. apply andb_true_iff in H as [_ H].
  destruct (dropDigits (String a s)) as [| u [| ? ?]] eqn:Hd; try done.
  apply meta_free_not_dangerous. by apply (dropDigits_meta_free _ u).
Qed.

(** X14. [journalctl] refuses a name that [validateServiceName] rejects
    without running anything. For a valid name it builds
    [journalctl -u <name>.service --no-pager -o short-iso -n <count>], where
    the count is the text of [min(lines, 500)], or 100 when [lines] is
    absent or zero. A [since] value that is absent, empty or matches neither
    pattern is dropped without an error, whatever characters it holds: these
    arguments are run as they are under [sudo] with a timeout of 15 seconds.
    A value that matches one of the two patterns and holds no dangerous
    character is passed: the same arguments followed by [--since <since>]
    are run. A value that matches and holds a dangerous character is refused
    by [safeExec] and nothing is run; only the date pattern admits such a
    value, since a relative time holds digits and one unit letter only. *)
Theorem journalctl_arguments (name : string) (lines : option Z)
  (since : option string) :
  let count :=
    match lines with
    | Some n => if n =? 0 then "100" else String_of_number (Z.min n 500)
    | None => "100"
    end in
  let base :=
    ["journalctl"; "-u"; name +:+ ".service"; "--no-pager"; "-o"; "short-iso";
     "-n"; count] in
  let run args :=
    match execFile "sudo" args 15000 with
    | ExecOk out _ => inr out
    | ExecFail msg err_code err =>
        inl {| shell_message := or_default msg "Command failed";
               code := err_code; stderr := or_default err "" |}
    end in
  (validateServiceName name = false ->
   journalctl execFile String_of_number name lines since =
   inl {| shell_message := "Invalid service name: " +:+ name;
          code := None; stderr := "" |})
  /\ (validateServiceName name = true ->
      (count = "100" \/ exists k, k <= 500 /\ count = String_of_number k)
      /\ (match since with
          | None => True
          | Some s => since_relative s = false /\ since_date s = false
          end ->
          journalctl execFile String_of_number name lines since = run base)
      /\ (forall s, since = Some s ->
            since_relative s = true \/ since_date s = true ->
            dangerous s = false ->
            journalctl execFile String_of_number name lines since =
            run (base ++ ["--since"; s]))
      /\ (forall s, since = Some s ->
            since_relative s = true \/ since_date s = true ->
            dangerous s = true ->
            since_date s = true
            /\ journalctl execFile String_of_number name lines since =
               inl {| shell_message :=
                        "Dangerous characters in argument: " +:+ s;
                      code := None; stderr := "" |})).
Proof.
  intros count base run.
  pose proof clean_literals as Hlit. split_window Hlit.
  split; [unfold journalctl; by intros -> |].
  intros Hn.
  pose proof (valid_name_unit_clean name Hn) as Hunit.
  rewrite (valid_name_unit name Hn) in Hunit.
  assert (Hcount : dangerous count = false).
  { unfold count. destruct lines as [n|]; [| done].
    destruct (n =? 0); [done | apply number_clean]. }
  assert (Hbase : Forall (fun a => dangerous a = false) (tail base))
    by (by repeat constructor).
  assert (Hargs : forall extra,
    journalctl_args String_of_number name lines since = base ++ extra ->
    Forall (fun a => dangerous a = false) extra ->
    journalctl execFile String_of_number name lines since = run (base ++ extra)).
  { intros extra Heq Hextra. unfold journalctl. rewrite Hn, Heq. cbn [negb].
    change (base ++ extra) with ("journalctl" :: (tail base ++ extra)).
    rewrite (safeExec_sudo "journalctl"); [| done |].
    - unfold run. simpl. by destruct (execFile _ _ _).
    - constructor; [done |]. by apply Forall_app. }
  assert (Hshape : forall extra,
    match since with
    | Some s => if JS.truthy s && (since_relative s || since_date s)
                then ["--since"; s] else []
    | None => []
    end = extra ->
    journalctl_args String_of_number name lines since = base ++ extra).
  { intros extra <-. unfold journalctl_args, base, count.
    rewrite (valid_name_unit name Hn).
    destruct since as [s|], lines as [n|];
      repeat match goal with
             | |- context [if ?b then _ else _] => destruct b
             end; reflexivity. }
  split; [| split; [| split]].
  - unfold count. destruct lines as [n|]; [| by left].
    destruct (n =? 0); [by left |].
    right. exists (Z.min n 500). split; [lia | done].
  - intros Hno.
    replace (run base) with (run (base ++ [])) by (by rewrite app_nil_r).
    apply Hargs; [| constructor]. apply Hshape.
    destruct since as [s|]; [| done].
    destruct Hno as [-> ->]. by rewrite andb_false_r.
  - intros s -> Hmatch Hclean.
    assert (Ht : JS.truthy s = true).
    { destruct s; [| done]. by destruct Hmatch. }
    apply Hargs; [| by repeat constructor]. apply Hshape.
    rewrite Ht. by destruct Hmatch as [-> | ->]; rewrite ?orb_true_r.
  - intros s -> Hmatch Hbad.
    assert (Hdate : since_date s = true).
    { destruct Hmatch as [Hrel | Hdate]; [| done].
      apply since_relative_clean in Hrel. congruence. }
    split; [exact Hdate |].
    assert (Ht : JS.truthy s = true) by (by destruct s).
    unfold journalctl. rewrite Hn. cbn [negb].
    rewrite (Hshape ["--since"; s])
      by (by rewrite Ht, Hdate, orb_true_r).
    assert (Hfind : find dangerous (base ++ ["--since"; s]) = Some s).
    { unfold base. simpl. by rewrite Hunit, Hcount, Hbad. }
    unfold safeExec. rewrite String.eqb_refl, Hfind. done.
Qed.

End ShellProperties.

(** ** Environment files *)

Lemma split_nonempty c (s : string) : JS.split c s <> [].
Proof.
  destruct s as [| a s]; simpl; [done |].
  destruct (Ascii.eqb a c); [done |]. by destruct (JS.split c s).
Qed.

Lemma split_app_any c (a b : string) :
  JS.split c (a +:+ String c b) = JS.split c a ++ JS.split c b.
Proof.
  induction a as [| x a IH]; simpl.
  - by rewrite Ascii.eqb_refl.
  - destruct (Ascii.eqb x c); [by rewrite IH |].
    rewrite IH. pose proof (split_nonempty c a) as Hne.
    by destruct (JS.split c a).
Qed.

Lemma split_parts_no_sep c (s : string) :
  Forall (fun part => JS.includes c part = false) (JS.split c s).
Proof.
  induction s as [| a s IH]; simpl; [by repeat constructor |].
  destruct (Ascii.eqb a c) eqn:Ha; [by constructor |].
  destruct (JS.split c s) as [| w ws]; [by repeat constructor; simpl; rewrite Ha |].
  apply Forall_cons in IH as [Hw Hws].
  constructor; [| done]. simpl. by rewrite Ha, Hw.
Qed.

Lemma split_join c (parts : list string) :
  parts <> [] ->
  Forall (fun part => JS.includes c part = false) parts ->
  JS.split c (JS.join (String c "") parts) = parts.
Proof.
  induction parts as [| w ws IH]; [done |]. intros _ Hall.
  apply Forall_cons in Hall as [Hw Hws].
  destruct ws as [| w2 ws]; [by apply split_absent |].
  change (JS.join (String c "") (w :: w2 :: ws))
    with (w +:+ String c "" +:+ JS.join (String c "") (w2 :: ws)).
  rewrite char_app, split_app_any, (split_absent c w Hw), IH; done.
Qed.

Lemma trimEnd_tail a (s : string) :
  Text.trimEnd (String a s) = String a s -> Text.trimEnd s = s.
Proof.
  simpl. destruct (Text.trimEnd s) as [| b t] eqn:Ht.
  - destruct (Text.is_space a); [done |]. by intros [= <-].
  - by intros [= <-].
Qed.

Lemma trimEnd_nonspace a (s : string) :
  Text.is_space a = false ->
  Text.trimEnd (String a s) = String a (Text.trimEnd s).
Proof.
  intros Ha. simpl. destruct (Text.trimEnd s); [by rewrite Ha | done].
Qed.

Lemma trimEnd_suffix (s : string) (n : nat) :
  Text.trimEnd s = s -> Text.trimEnd (Text.sliceFrom n s) = Text.sliceFrom n s.
Proof.
  revert s. induction n as [| n IH]; intros s Hs; [by destruct s |].
  destruct s as [| a s]; [done |]. simpl Text.sliceFrom.
  by apply IH, (trimEnd_tail a).
Qed.

Lemma trimEnd_app (a b : string) :
  Text.trimEnd b <> "" -> Text.trimEnd (a +:+ b) = a +:+ Text.trimEnd b.
Proof.
  intros Hb. induction a as [| x a IH]; [done |].
  change (String x a +:+ b) with (String x (a +:+ b)).
  change (String x a +:+ Text.trimEnd b) with (String x (a +:+ Text.trimEnd b)).
  cbn [Text.trimEnd]. rewrite IH.
  destruct (a +:+ Text.trimEnd b) eqn:He; [| done].
  destruct a; [done | discriminate].
Qed.

Lemma trimEnd_idem (s : string) : Text.trimEnd (Text.trimEnd s) = Text.trimEnd s.
Proof.
  induction s as [| a s IH]; [done |]. cbn [Text.trimEnd].
  destruct (Text.trimEnd s) as [| b t] eqn:Ht.
  - destruct (Text.is_space a) eqn:Ha; [done |]. simpl. by rewrite Ha.
  - cbn [Text.trimEnd] in *. rewrite IH. done.
Qed.

Lemma starts_clean_trimStart (s : string) :
  starts_clean s -> Text.trimStart s = s.
Proof. destruct s as [| a s]; [done |]. simpl. by intros ->. Qed.

Lemma trimStart_starts_clean (s : string) :
  s <> "" -> Text.trimStart s = s -> starts_clean s.
Proof.
  destruct s as [| a s]; [done |]. intros _. simpl.
  destruct (Text.is_space a) eqn:Ha; [| done].
  intros He. exfalso.
  assert (Hlen : forall t, (String.length (Text.trimStart t) <= String.length t)%nat).
  { induction t as [| b t IHt]; simpl; [lia |].
    destruct (Text.is_space b); simpl; lia. }
  specialize (Hlen s). rewrite He in Hlen. simpl in Hlen. lia.
Qed.

Lemma trim_starts_clean (s : string) :
  Text.trim s <> "" -> starts_clean (Text.trim s).
Proof.
  unfold Text.trim.
  assert (Hu : Text.trimStart s = "" \/ starts_clean (Text.trimStart s)).
  { induction s as [| a s IH]; simpl; [by left |].
    destruct (Text.is_space a) eqn:Ha; [done | by right]. }
  destruct Hu as [-> | Hu]; [done |].
  destruct (Text.trimStart s) as [| a u]; [done |]. simpl in Hu.
  intros _. rewrite (trimEnd_nonspace a u Hu). done.
Qed.

Lemma slice0_includes c (n : nat) (s : string) :
  JS.includes c s = false -> JS.includes c (JS.slice0 n s) = false.
Proof.
  revert n. induction s as [| a s IH]; intros [| n]; simpl; try done.
  intros [Ha Hs]%orb_false_iff. by rewrite Ha, IH.
Qed.

Lemma sliceFrom_includes c (n : nat) (s : string) :
  JS.includes c s = false -> JS.includes c (Text.sliceFrom n s) = false.
Proof.
  revert n. induction s as [| a s IH]; intros [| n]; simpl; try done.
  intros [Ha Hs]%orb_false_iff. by apply IH.
Qed.

Lemma indexOf_first c (s : string) (n : nat) :
  Text.indexOf c s = Some n -> JS.includes c (JS.slice0 n s) = false.
Proof.
  revert n. induction s as [| a s IH]; intros n; simpl; [done |].
  destruct (Ascii.eqb a c) eqn:Ha; [by intros [= <-] |].
  destruct (Text.indexOf c s) as [i|]; [| done].
  intros [= <-]. simpl. by rewrite Ha, IH.
Qed.

Lemma indexOf_app c (a b : string) :
  JS.includes c a = false ->
  Text.indexOf c (a +:+ String c b) = Some (String.length a).
Proof.
  induction a as [| x a IH]; simpl.
  - by rewrite Ascii.eqb_refl.
  - intros [Hx Ha]%orb_false_iff. by rewrite Hx, IH.
Qed.

Lemma sliceFrom_app_sep c (a b : string) :
  Text.sliceFrom (S (String.length a)) (a +:+ String c b) = b.
Proof. induction a as [| x a IH]; simpl; [by destruct b | done]. Qed.

(** What [readEnvFile]'s loop makes of the line [writeEnvFile] writes for a
    storable entry. *)
Lemma env_line_entry_written (e : Env.entry) :
  storable e ->
  env_line_entry (Env.key e +:+ "=" +:+ Env.value e) = Some e.
Proof.
  destruct e as [k v]. unfold storable. simpl.
  intros (Hne & Hstart & Hhash & Heq & _ & _ & Hend).
  pose proof (trimStart_starts_clean k Hne Hstart) as Hclean.
  destruct k as [| a k]; [done |]. simpl in Hclean.
  assert (Htrim : Text.trim (String a k +:+ "=" +:+ v) = String a k +:+ "=" +:+ v).
  { unfold Text.trim.
    change (String a k +:+ "=" +:+ v) with (String a (k +:+ "=" +:+ v)).
    cbn [Text.trimStart]. rewrite Hclean.
    change (String a (k +:+ "=" +:+ v)) with (String a k +:+ String "=" v).
    rewrite trimEnd_app; rewrite (trimEnd_nonspace "=" v eq_refl), Hend; done. }
  unfold env_line_entry. rewrite Htrim.
  change (String a k +:+ "=" +:+ v) with (String a (k +:+ String "=" v)).
  cbn [JS.truthy negb orb].
  assert (Hh : JS.startsWith (String a (k +:+ String "=" v)) "#" = false).
  { simpl in *. destruct (Ascii.eqb a "#"); [| done].
    simpl in Hhash. by destruct k. }
  rewrite Hh.
  change (String a (k +:+ String "=" v)) with (String a k +:+ String "=" v).
  rewrite (indexOf_app "=" (String a k) v Heq). simpl Nat.ltb.
  cbv iota. by rewrite slice0_app, sliceFrom_app_sep.
Qed.

Lemma omap_step {A B : Type} (f : A -> option B) (a : A) (l : list A) :
  omap f (a :: l) =
  match f a with
  | Some y => y :: omap f l
  | None => omap f l
  end.
Proof. reflexivity. Qed.

Lemma omap_written (entries : list Env.entry) :
  Forall storable entries ->
  omap env_line_entry
    (map (fun e => Env.key e +:+ "=" +:+ Env.value e) entries) = entries.
Proof.
  induction 1 as [| x l Hx _ IH]; [done |].
  cbn [map]. by rewrite omap_step, (env_line_entry_written x Hx), IH.
Qed.

Lemma env_written_read (entries : list Env.entry) :
  Forall storable entries ->
  env_entries (env_content entries) = entries.
Proof.
  intros Hall. unfold env_entries, env_content.
  rewrite split_app_any. simpl (JS.split LF "").
  rewrite omap_app. simpl (omap env_line_entry [""]).
  rewrite app_nil_r.
  destruct entries as [| e entries]; [done |].
  rewrite split_join.
  - by apply omap_written.
  - done.
  - apply Forall_map. eapply Forall_impl; [exact Hall |].
    intros [k v] (_ & _ & _ & _ & Hk & Hv & _). simpl in *.
    by rewrite !includes_app, Hk, Hv.
Qed.

(** X15. Entries written by [writeEnvFile] are read back by [readEnvFile]
    as they were, in the same order, provided every key is not empty, does
    not start with a blank or with [#] and holds no [=] or line feed, and
    every value holds no line feed and does not end with a blank. *)
Theorem env_round_trip (entries : list Env.entry) :
  Forall storable entries ->
  env_entries (env_content entries) = entries.
Proof. apply env_written_read. Qed.

Lemma startsWith_nil (s : string) : JS.startsWith s "" = true.
Proof. by destruct s. Qed.

Lemma env_line_entry_storable (line : string) (e : Env.entry) :
  JS.includes LF line = false ->
  env_line_entry line = Some e -> storable e.
Proof.
  intros Hlf. unfold env_line_entry.
  pose proof (trim_includes LF line Hlf) as Hlf'.
  pose proof (trim_starts_clean line) as Hclean.
  assert (Hend : Text.trimEnd (Text.trim line) = Text.trim line)
    by apply trimEnd_idem.
  destruct (Text.trim line) as [| a t] eqn:Ht; [done |].
  specialize (Hclean ltac:(done)).
  cbn [JS.truthy negb orb].
  destruct (JS.startsWith (String a t) "#") eqn:Hhash; [done |].
  destruct (Text.indexOf "=" (String a t)) as [n|] eqn:Hidx; [| done].
  destruct n as [| n]; [done |]. cbn [Nat.ltb Nat.leb].
  set (k := JS.slice0 (S n) (String a t)).
  set (v := Text.sliceFrom (S (S n)) (String a t)).
  intros [= <-].
  assert (Hk : k = String a (JS.slice0 n t)) by reflexivity.
  assert (Ha : Ascii.eqb a "#" = false).
  { simpl in Hhash. by rewrite startsWith_nil, andb_true_r in Hhash. }
  split; [by rewrite Hk |].
  split; [rewrite Hk; by apply starts_clean_trimStart |].
  split; [rewrite Hk; simpl; by rewrite Ha |].
  split; [by apply indexOf_first |].
  split; [by apply slice0_includes |].
  split; [by apply sliceFrom_includes |].
  by apply trimEnd_suffix.
Qed.

Lemma env_entries_storable (stdout : string) :
  Forall storable (env_entries stdout).
Proof.
  unfold env_entries. pose proof (split_parts_no_sep LF stdout) as Hparts.
  induction Hparts as [| line lines Hline _ IH]; [constructor |].
  rewrite omap_step. destruct (env_line_entry line) as [e|] eqn:He; [| done].
  constructor; [by apply (env_line_entry_storable line) | done].
Qed.

(** X16. Whatever [cat] does, every entry [readEnvFile] returns has a key
    that is not empty, starts with no blank and no [#] and holds no [=], and
    a value that ends with no blank; so the text [writeEnvFile] builds from
    the returned entries is read back as the same entries. When [cat] fails
    or is refused, [readEnvFile] returns the empty list. *)
Theorem readEnvFile_stable
  (execFile : string -> list string -> Z -> ExecOutcome) (envPath : string) :
  Forall storable (readEnvFile execFile envPath)
  /\ env_entries (env_content (readEnvFile execFile envPath)) =
     readEnvFile execFile envPath
  /\ (forall e, safeExec execFile "sudo" ["cat"; envPath] None = inl e ->
        readEnvFile execFile envPath = []).
Proof.
  assert (Hall : Forall storable (readEnvFile execFile envPath)).
  { unfold readEnvFile.
    destruct (safeExec execFile "sudo" ["cat"; envPath] None) as [e | [out err]];
      [constructor | apply env_entries_storable]. }
  split; [exact Hall |]. split; [by apply env_written_read |].
  intros e He. unfold readEnvFile. by rewrite He.
Qed.

(** ** Unit files *)

Lemma override_none (r : UnitProps) : override r no_props = r.
Proof. by destruct r. Qed.

Lemma override_assoc (a b c : UnitProps) :
  override (override a b) c = override a (override b c).
Proof.
  destruct a, b, c. unfold override. simpl.
  f_equal; repeat match goal with
                  | |- context [from_option _ _ ?o] => destruct o; simpl
                  end; done.
Qed.

Lemma unit_line_override (r : UnitProps) (line : string) :
  unit_line r line = override r (unit_line no_props line).
Proof.
  unfold unit_line.
  repeat match goal with
         | |- context [if ?b then _ else _] => destruct b
         end; by destruct r.
Qed.

Lemma fold_unit_lines (lines : list string) (r : UnitProps) :
  fold_left unit_line lines r = override r (fold_left unit_line lines no_props).
Proof.
  revert r. induction lines as [| line lines IH]; intros r; simpl.
  - by rewrite override_none.
  - rewrite (IH (unit_line r line)), (IH (unit_line no_props line)).
    by rewrite (unit_line_override r line), override_assoc.
Qed.

(** X17. [parseUnitFile] reads a unit file line by line and a later line
    replaces what an earlier one set: the properties of two texts joined by
    a line feed are those of the second text where it sets them and those
    of the first text elsewhere. *)
Theorem parseUnitFile_append (first second : string) :
  parseUnitFile (first +:+ String LF second) =
  override (parseUnitFile first) (parseUnitFile second).
Proof.
  unfold parseUnitFile. rewrite split_app_any, fold_left_app.
  apply fold_unit_lines.
Qed.

(** ** The request filter *)


(** ** The login and logout routes *)

Section RouteProperties.

Variable hmac_sha256_hex : string -> string -> string.
Variable bcrypt_compare : string -> string -> bool.
Variable cfg : Config.

Local Abbreviation verify := (verifySignedValue hmac_sha256_hex cfg).
Local Abbreviation route_in := (login_route hmac_sha256_hex bcrypt_compare cfg).
Local Abbreviation route_out := (logout_route hmac_sha256_hex cfg).

(** X19. The login route answers 400 or 500 without reading or changing the
    store when the body holds no non-empty password string. With one it
    answers 200 or 401 and nothing else: 200 exactly when [login] succeeded,
    and then the session built by this call is live; every refusal of
    [login], the missing configuration and the rate limit included, is a
    401. *)
Theorem login_route_status (field : PasswordField) (c : LoginCall)
  (st : Store) :
  (field = BadJson ->
   route_in field c st = (st, (error_response 500 "Internal error", [])))
  /\ (field = NoPassword \/ field = Password "" ->
      route_in field c st = (st, (error_response 400 "Password required", [])))
  /\ (forall pw, field = Password pw -> pw <> "" ->
      let r := route_in field c st in
      (http_status (fst (snd r)) = 200 \/ http_status (fst (snd r)) = 401)
      /\ (http_status (fst (snd r)) = 200 <->
          success (fst (snd (login hmac_sha256_hex bcrypt_compare cfg
                               (with_password c pw) st))) = true)
      /\ (http_status (fst (snd r)) = 200 ->
          activeSession (fst r) = Some (issued c)
          /\ json_success (fst (snd r)) = true)
      /\ (http_status (fst (snd r)) = 401 ->
          activeSession (fst r) = activeSession st
          /\ exists msg, json_error (fst (snd r)) = Some msg)).
Proof.
  split; [by intros -> | split].
  - by intros [-> | ->].
  - intros pw -> Hpw. unfold login_route. rewrite (truthy_nonempty _ Hpw).
    cbn [negb].
    pose proof (login_session_slot hmac_sha256_hex bcrypt_compare cfg
                  (with_password c pw) st) as Hslot.
    pose proof (login_cases hmac_sha256_hex bcrypt_compare cfg
                  (with_password c pw) st) as Hcases.
    destruct (success _) eqn:Hok; simpl.
    + repeat split; try done; by left.
    + repeat split; try done; try (by right).
      rewrite Hcases in Hok |- *. simpl in Hok |- *.
      destruct (negb (checkIPAllowlist cfg (caller c))); [by eexists |].
      destruct (negb (allowed _)); [by eexists |].
      destruct (negb (JS.truthy (PANEL_PASSWORD_HASH cfg))); [by eexists |].
      unfold login_resume in *.
      destruct (bcrypt_compare pw (PANEL_PASSWORD_HASH cfg)); [done | by eexists].
Qed.

Lemma validateSession_young (addr : string) (cookie : option string)
  (now : Z) (st : Store) (s : Session) :
  activeSession st = Some s ->
  now - createdAt s <= SESSION_MAX_AGE_MS ->
  let owner :=
    checkIPAllowlist cfg addr = true
    /\ (exists ck, cookie = Some ck /\ verify ck = Some (id s))
    /\ id s <> "" in
  (owner
   /\ validateSession hmac_sha256_hex cfg addr cookie now st =
      (with_session st (Some (touch now s)),
       {| valid := true; client_ip := addr |}))
  \/ (~ owner
      /\ validateSession hmac_sha256_hex cfg addr cookie now st =
         (st, {| valid := false; client_ip := addr |})).
Proof.
  intros Hs Hage owner. unfold owner, validateSession.
  destruct (checkIPAllowlist cfg addr) eqn:Hip; simpl;
    [| right; split; [by intros (? & _) | done]].
  destruct cookie as [ck|];
    [| right; split; [by intros (_ & (? & ? & _) & _) | done]].
  destruct (JS.truthy ck) eqn:Hck; simpl.
  2:{ right. split; [| done]. intros (_ & (ck' & [= <-] & Hv) & _).
      apply (verified_cookie_truthy hmac_sha256_hex cfg) in Hv. congruence. }
  destruct (verify ck) as [sid|] eqn:Hv.
  2:{ right. split; [| done]. intros (_ & (ck' & [= <-] & Hv') & _).
      congruence. }
  destruct (JS.truthy sid) eqn:Hsid; simpl.
  2:{ right. split; [| done]. intros (_ & (ck' & [= <-] & Hv') & Hid).
      rewrite Hv in Hv'. injection Hv' as ->.
      by rewrite (truthy_nonempty _ Hid) in Hsid. }
  rewrite Hs.
  destruct (String.eqb_spec (id s) sid) as [<- | Hne]; simpl.
  2:{ right. split; [| done]. intros (_ & (ck' & [= <-] & Hv') & _).
      congruence. }
  destruct (Z.gtb_spec (now - createdAt s) SESSION_MAX_AGE_MS); [lia |].
  left. split; [| done].
  split; [done |]. split; [by exists ck | by apply truthy_true].
Qed.

Lemma validateCSRF_token (header : option string) (st : Store) (s : Session) :
  activeSession st = Some s ->
  validateCSRF header st = true
  <-> header = Some (csrfToken s) /\ csrfToken s <> "".
Proof.
  intros Hs. unfold validateCSRF. rewrite Hs.
  destruct header as [h|]; [| split; [done | by intros [? _]]].
  destruct (JS.truthy h) eqn:Hh; simpl.
  - split.
    + intros ->%String.eqb_eq. split; [done | by apply truthy_true].
    + intros [[= ->] _]. apply String.eqb_refl.
  - split; [done |]. intros [[= ->] Hne].
    by rewrite (truthy_nonempty _ Hne) in Hh.
Qed.


End RouteProperties.

(** ** The window of the soft limit *)

(** X21. Once the window of an unlocked entry has passed, the address has
    its budget back whatever the count was. The check of a [login] deletes
    the expired entry and the call goes on to its password comparison. When
    the comparison fails and the address still has no entry at that moment,
    that is, no other login of the same address has recorded a failure while
    this password was compared, the call stores a fresh entry that counts
    this one failure from the instant it is recorded and reports 4 attempts
    remaining. A [login] that nothing interleaves with is such a call. *)
Theorem login_after_window
  (hmac_sha256_hex : string -> string -> string)
  (bcrypt_compare : string -> string -> bool) (cfg : Config)
  (c : LoginCall) (st : Store) (e : RateEntry) :
  rateLimitMap st !! caller c = Some e ->
  lockedUntil e <= tCheck c ->
  LOGIN_WINDOW_MS < tCheck c - firstAttempt e ->
  checkIPAllowlist cfg (caller c) = true ->
  PANEL_PASSWORD_HASH cfg <> "" ->
  0 <= tRecheck c ->
  tRecheck c - tRecord c <= LOGIN_WINDOW_MS ->
  login_begin cfg c st =
    (with_rate st (delete (caller c) (rateLimitMap st)), AwaitCompare)
  /\ (forall st2 : Store,
        rateLimitMap st2 !! caller c = None ->
        login_resume hmac_sha256_hex cfg c false st2 =
        (with_rate st2
           (<[caller c := fresh_entry (tRecord c)]> (rateLimitMap st2)),
         ({| success := false; error := Some "Invalid password";
             login_remaining := Some 4; login_retryAfterMs := None |},
          [Audit "login_failed" (caller c) None])))
  /\ (bcrypt_compare (password c) (PANEL_PASSWORD_HASH cfg) = false ->
      login hmac_sha256_hex bcrypt_compare cfg c st =
      (with_rate st (<[caller c := fresh_entry (tRecord c)]> (rateLimitMap st)),
       ({| success := false; error := Some "Invalid password";
           login_remaining := Some 4; login_retryAfterMs := None |},
        [Audit "login_failed" (caller c) None]))).
Proof.
  intros He Hl Hw Hip Hcfg Hnow Hgap.
  assert (Hbegin : login_begin cfg c st =
            (with_rate st (delete (caller c) (rateLimitMap st)), AwaitCompare)).
  { rewrite login_begin_cases, Hip. cbn [negb].
    rewrite (checkRateLimit_expired _ _ _ e He Hl Hw).
    cbn [fst snd allowed full_budget negb].
    by rewrite (truthy_nonempty _ Hcfg). }
  assert (Hresume : forall st2 : Store,
            rateLimitMap st2 !! caller c = None ->
            login_resume hmac_sha256_hex cfg c false st2 =
            (with_rate st2
               (<[caller c := fresh_entry (tRecord c)]> (rateLimitMap st2)),
             ({| success := false; error := Some "Invalid password";
                 login_remaining := Some 4; login_retryAfterMs := None |},
              [Audit "login_failed" (caller c) None]))).
  { intros st2 Hnone. unfold login_resume. cbn [negb].
    unfold recordFailedAttempt. rewrite Hnone.
    rewrite (checkRateLimit_counting _ _ _ (fresh_entry (tRecord c)));
      [done | apply lookup_insert_eq | simpl; lia | simpl; lia]. }
  split; [exact Hbegin |]. split; [exact Hresume |].
  intros Hbad. unfold login. rewrite Hbegin, Hbad.
  rewrite Hresume by (simpl; apply lookup_delete_eq).
  unfold with_rate. cbn [activeSession rateLimitMap].
  by rewrite insert_delete_eq.
Qed.

(** * The further properties on concrete inputs *)

Lemma uint_digits_clean (d : Decimal.uint) :
  all_chars meta_free (NilEmpty.string_of_uint d) = true.
Proof. induction d; simpl; done. Qed.

Lemma decimal_clean (n : Z) : dangerous (decimal n) = false.
Proof.
  apply meta_free_not_dangerous. unfold decimal, NilZero.string_of_int.
  destruct (Z.to_int n) as [d | d]; unfold NilZero.string_of_uint;
    destruct d; try done; simpl; apply (uint_digits_clean d).
Qed.

Lemma verifySignedValue_iff_witness :
  verifySignedValue demo_hmac strict_cfg office_cookie =
    Some (sessionId office_login)
  <-> office_cookie = signValue demo_hmac strict_cfg (sessionId office_login).
Proof.
  apply (verifySignedValue_iff demo_hmac strict_cfg demo_hmac_hex).
Defined.

Lemma record_failures_lockout_witness :
  (∅ : gmap string RateEntry) !! "203.0.113.9" = None
  /\ record_failures "203.0.113.9"
       [0; 100; 200; 300; 400; 500; 600; 700; 800; 900] ∅ !! "203.0.113.9" =
     Some (entry_of 10 0 1800900)
  /\ fst (checkRateLimit 1000000 "203.0.113.9"
            (record_failures "203.0.113.9"
               [0; 100; 200; 300; 400; 500; 600; 700; 800; 900] ∅)) =
     {| allowed := false; remaining := 0; retryAfterMs := 800900 |}.
Proof.
  destruct (record_failures_lockout "203.0.113.9" 0
              [100; 200; 300; 400; 500; 600; 700; 800; 900] ∅)
    as [Hentry Hcheck];
    [apply lookup_empty
    | repeat constructor; unfold LOGIN_WINDOW_MS; lia |].
  split; [apply lookup_empty |]. split; [exact Hentry |].
  apply (Hcheck ltac:(simpl; lia) 1000000). simpl. unfold LOCKOUT_DURATION_MS. lia.
Defined.

Lemma sweep_unobservable_witness :
  2000000 <= 2000001
  /\ sweep 2000000 {[ "203.0.113.9" := entry_of 3 0 0 ]} !! "203.0.113.9" = None
  /\ fst (checkRateLimit 2000001 "203.0.113.9"
            (sweep 2000000 {[ "203.0.113.9" := entry_of 3 0 0 ]})) =
     fst (checkRateLimit 2000001 "203.0.113.9"
            {[ "203.0.113.9" := entry_of 3 0 0 ]}).
Proof.
  destruct (sweep_unobservable 2000000 2000001 "203.0.113.9"
              {[ "203.0.113.9" := entry_of 3 0 0 ]}) as (Hcheck & _); [lia |].
  split; [lia |]. split; [by vm_compute | exact Hcheck].
Defined.

Lemma soft_limit_gives_no_retry_time_witness :
  reachable demo_hmac demo_compare open_cfg (guesses_in_turn 5)
  /\ login demo_hmac demo_compare open_cfg
       (call_at "203.0.113.9" "hunter2" 5000 "" "") (guesses_in_turn 5) =
     (guesses_in_turn 5,
      ({| success := false;
          error := Some "Too many attempts. Try again later.";
          login_remaining := Some 0; login_retryAfterMs := Some 0 |},
       [Audit "rate_limited" "203.0.113.9" (Some "login")])).
Proof.
  split; [apply guesses_in_turn_reachable |].
  apply (soft_limit_gives_no_retry_time demo_hmac demo_compare open_cfg
           (call_at "203.0.113.9" "hunter2" 5000 "" "") (guesses_in_turn 5));
    [apply guesses_in_turn_reachable | simpl; lia | by vm_compute].
Defined.

Lemma login_touches_only_caller_witness :
  rateLimitMap (fst (login demo_hmac demo_compare open_cfg
                       (call_at "198.51.100.4" "letmein" 9000 "" "")
                       (guesses_in_turn 3))) !! "203.0.113.9" =
    rateLimitMap (guesses_in_turn 3) !! "203.0.113.9"
  /\ rateLimitMap (fst (login demo_hmac demo_compare open_cfg
                          (call_at "203.0.113.9" "hunter2" 9000 "a" "b")
                          (guesses_in_turn 3))) !! "203.0.113.9" = None.
Proof.
  destruct (login_touches_only_caller demo_hmac demo_compare open_cfg
              (call_at "198.51.100.4" "letmein" 9000 "" "") (guesses_in_turn 3))
    as [Hother _].
  destruct (login_touches_only_caller demo_hmac demo_compare open_cfg
              (call_at "203.0.113.9" "hunter2" 9000 "a" "b") (guesses_in_turn 3))
    as [_ Hclear].
  split; [by apply Hother |].
  by apply Hclear.
Defined.

Lemma login_then_authorized_witness :
  exists sessionCookie csrfCookie,
    snd (snd (login demo_hmac demo_compare strict_cfg office_login
                initial_store)) =
      [SetCookie "lsp_session" sessionCookie true 86400;
       SetCookie "lsp_csrf" csrfCookie false 86400;
       Audit "login_success" "10.0.0.5" None]
    /\ snd (requireAuth demo_hmac strict_cfg "10.0.0.5" (Some sessionCookie)
              3600000 office_store) = inr "10.0.0.5"
    /\ requireCSRF (Some csrfCookie)
         (fst (requireAuth demo_hmac strict_cfg "10.0.0.5" (Some sessionCookie)
                 3600000 office_store)) = inr tt.
Proof.
  apply (login_then_authorized demo_hmac demo_compare strict_cfg demo_hmac_hex
           office_login initial_store 3600000);
    [by vm_compute | done | done | by vm_compute].
Defined.

Lemma validateSession_keeps_or_expires_witness :
  activeSession office_store = Some (issued office_login)
  /\ activeSession
       (fst (validateSession demo_hmac strict_cfg "10.0.0.6"
               (Some office_cookie) 90000000 office_store)) =
     Some (issued office_login)
  /\ activeSession
       (fst (validateSession demo_hmac strict_cfg "10.0.0.5"
               (Some office_cookie) 90000000 office_store)) = None
  /\ SESSION_MAX_AGE_MS < 90000000 - createdAt (issued office_login).
Proof.
  pose proof (validateSession_keeps_or_expires demo_hmac strict_cfg "10.0.0.5"
                (Some office_cookie) 90000000 office_store
                (issued office_login) eq_refl) as Hown.
  assert (Hgone : activeSession
            (fst (validateSession demo_hmac strict_cfg "10.0.0.5"
                    (Some office_cookie) 90000000 office_store)) = None)
    by (by vm_compute).
  rewrite Hgone in Hown. destruct Hown as (Hold & _).
  split; [done |]. split; [by vm_compute |]. by split.
Defined.

Lemma getClientIP_resolution_witness :
  getClientIP (Some " 203.0.113.9 , 10.0.0.1") (Some "10.0.0.1") = "203.0.113.9"
  /\ getClientIP (Some " ,10.0.0.1") None = "unknown".
Proof.
  destruct (getClientIP_resolution (Some " 203.0.113.9 , 10.0.0.1")
              (Some "10.0.0.1")) as (_ & Hfirst & _).
  destruct (getClientIP_resolution (Some " ,10.0.0.1") None) as (_ & _ & Hrest).
  split.
  - by destruct (Hfirst " 203.0.113.9 , 10.0.0.1" eq_refl ltac:(by vm_compute)).
  - apply Hrest. right. by exists " ,10.0.0.1".
Defined.

Lemma validateServiceName_safe_witness :
  validateServiceName "my-app_2" = true
  /\ unit_of "my-app_2" = "my-app_2.service"
  /\ JS.includes "/" "my-app_2" = false.
Proof.
  destruct (validateServiceName_safe "my-app_2" eq_refl)
    as (_ & _ & _ & _ & Hslash & Hunit & _).
  by split; [| split].
Defined.

Lemma safeExec_runs_only_allowlisted_witness :
  safeExec echo_exec "sudo" ["cat"; "/etc/my-app.env"] None =
    inr ("sudo cat /etc/my-app.env ", "")
  /\ (exists cmd rest,
        ["cat"; "/etc/my-app.env"] = cmd :: rest /\ In cmd ALLOWED_COMMANDS).
Proof.
  destruct (safeExec_runs_only_allowlisted echo_exec "sudo"
              ["cat"; "/etc/my-app.env"] None "sudo cat /etc/my-app.env " ""
              eq_refl) as (_ & Hsudo & _).
  split; [done | by apply Hsudo].
Defined.

Lemma systemctl_invocation_witness :
  systemctl echo_exec "restart" "my-app_2" =
    inr "sudo systemctl restart my-app_2.service"
  /\ systemctl echo_exec "reload" "my-app_2" =
     inl {| shell_message := "Invalid systemctl action: reload";
            code := None; stderr := "" |}.
Proof.
  destruct (systemctl_invocation echo_exec "restart" "my-app_2")
    as (_ & _ & Hrun).
  destruct (systemctl_invocation echo_exec "reload" "my-app_2") as (Hbad & _).
  split; [by rewrite Hrun | by apply Hbad].
Defined.

Lemma journalctl_arguments_witness :
  journalctl echo_exec decimal "my-app_2" (Some 1000) (Some "yesterday;reboot") =
    inr "sudo journalctl -u my-app_2.service --no-pager -o short-iso -n 500 "
  /\ journalctl echo_exec decimal "my-app_2" (Some 0) (Some "30m") =
     inr ("sudo journalctl -u my-app_2.service --no-pager -o short-iso -n 100 "
          +:+ "--since 30m ")
  /\ journalctl echo_exec decimal "my-app_2" None (Some "2024-01-01;reboot") =
     inl {| shell_message :=
              "Dangerous characters in argument: 2024-01-01;reboot";
            code := None; stderr := "" |}.
Proof.
  pose proof (journalctl_arguments echo_exec decimal decimal_clean
                "my-app_2" (Some 1000) (Some "yesterday;reboot")) as Hdrop.
  pose proof (journalctl_arguments echo_exec decimal decimal_clean
                "my-app_2" (Some 0) (Some "30m")) as Hpass.
  pose proof (journalctl_arguments echo_exec decimal decimal_clean
                "my-app_2" None (Some "2024-01-01;reboot")) as Hbad.
  cbv zeta in Hdrop, Hpass, Hbad.
  destruct Hdrop as (_ & Hdrop). destruct (Hdrop eq_refl) as (_ & Hdrop' & _).
  destruct Hpass as (_ & Hpass).
  destruct (Hpass eq_refl) as (_ & _ & Hpass' & _).
  destruct Hbad as (_ & Hbad). destruct (Hbad eq_refl) as (_ & _ & _ & Hbad').
  split; [by rewrite Hdrop' |].
  split; [by rewrite (Hpass' "30m" eq_refl (or_introl eq_refl) eq_refl) |].
  by destruct (Hbad' "2024-01-01;reboot" eq_refl (or_intror eq_refl) eq_refl).
Defined.

Lemma env_round_trip_witness :
  env_entries
    (env_content [ {| Env.key := "PORT"; Env.value := "8080" |};
                   {| Env.key := "API_KEY"; Env.value := "" |} ]) =
  [ {| Env.key := "PORT"; Env.value := "8080" |};
    {| Env.key := "API_KEY"; Env.value := "" |} ].
Proof.
  apply env_round_trip. repeat constructor; by vm_compute.
Defined.

Lemma login_route_status_witness :
  login_route demo_hmac demo_compare unset_cfg (Password "hunter2")
    (call_at "203.0.113.9" "" 0 "a" "b") initial_store =
  (initial_store,
   ({| http_status := 401;
       json_error := Some "Panel not configured. Run setup.sh first.";
       json_remaining := None; json_retryAfterMs := None;
       json_success := false |}, []))
  /\ login_route demo_hmac demo_compare unset_cfg (Password "")
       (call_at "203.0.113.9" "" 0 "a" "b") initial_store =
     (initial_store, (error_response 400 "Password required", [])).
Proof.
  destruct (login_route_status demo_hmac demo_compare unset_cfg (Password "")
              (call_at "203.0.113.9" "" 0 "a" "b") initial_store)
    as (_ & Hempty & _).
  split; [by vm_compute | apply Hempty; by right].
Defined.


Lemma login_after_window_witness :
  login_begin open_cfg
    (call_at "203.0.113.9" "letmein" 2000000 "" "") (guesses_in_turn 5) =
  (with_rate (guesses_in_turn 5)
     (delete "203.0.113.9" (rateLimitMap (guesses_in_turn 5))), AwaitCompare)
  /\ login demo_hmac demo_compare open_cfg
       (call_at "203.0.113.9" "letmein" 2000000 "" "") (guesses_in_turn 5) =
     (with_rate (guesses_in_turn 5)
        (<["203.0.113.9" := fresh_entry 2000250]>
           (rateLimitMap (guesses_in_turn 5))),
      ({| success := false; error := Some "Invalid password";
          login_remaining := Some 4; login_retryAfterMs := None |},
       [Audit "login_failed" "203.0.113.9" None])).
Proof.
  destruct (login_after_window demo_hmac demo_compare open_cfg
              (call_at "203.0.113.9" "letmein" 2000000 "" "")
              (guesses_in_turn 5) (entry_of 5 250 0)
              ltac:(by vm_compute) ltac:(by vm_compute) ltac:(by vm_compute)
              ltac:(by vm_compute) ltac:(done)
              ltac:(by vm_compute) ltac:(by vm_compute))
    as (Hbegin & _ & Hlogin).
  split; [exact Hbegin | apply Hlogin; reflexivity].
Defined.

(** The same call when another login of the same address fails while this
    password is compared: the address has an entry again when this call
    records its failure, which is counted as the second one. *)
Example overlapped_login_counts_twice :
  let c := call_at "203.0.113.9" "letmein" 2000000 "" "" in
  let st1 := fst (login_begin open_cfg c (guesses_in_turn 5)) in
  let st2 := fst (login_resume demo_hmac open_cfg c false
                    (fst (login_begin open_cfg c st1))) in
  rateLimitMap st2 !! "203.0.113.9" = Some (entry_of 1 2000250 0)
  /\ snd (login_resume demo_hmac open_cfg c false st2) =
     ({| success := false; error := Some "Invalid password";
         login_remaining := Some 3; login_retryAfterMs := None |},
      [Audit "login_failed" "203.0.113.9" None])
  /\ rateLimitMap (fst (login_resume demo_hmac open_cfg c false st2))
       !! "203.0.113.9" = Some (entry_of 2 2000250 0).
Proof. by vm_compute. Qed.

Lemma safeExec_sudo_checks_first_only_witness :
  In "sudo" ALLOWED_COMMANDS
  /\ safeExec echo_exec "sudo" ["sudo"; "rm"; "-rf"; "/srv"] None =
     inr ("sudo sudo rm -rf /srv ", "").
Proof.
  assert (Hin : In "sudo" ALLOWED_COMMANDS) by (simpl; tauto).
  split; [exact Hin |].
  by rewrite (safeExec_sudo_checks_first_only echo_exec "sudo"
                ["rm"; "-rf"; "/srv"] None Hin ltac:(by repeat constructor)).
Defined.
